(** * Proximity: presence, proximity and call-session orchestration

    A shallow embedding of the Proximity sources:
    - the socket.io server handler ([setupSocketHandler]),
    - the Phaser client scene ([GameScene]) and its [checkProximity],
    - the WebRTC service and the [proximityUpdate] handler of [App.jsx],
    - the zone strategy of the backend blueprint ([loadMap],
      [getJitsiRoomForPosition], [checkJitsiZone]).

    JavaScript numbers are IEEE-754 binary64 values, so they are embedded
    as Rocq's primitive floats; JavaScript objects used as dictionaries
    are association lists in insertion order. *)

From Stdlib Require Import List String Ascii Bool ZArith Lia PeanoNat.
From Stdlib Require Import Floats.
Import ListNotations.

Set Implicit Arguments.

Local Open Scope string_scope.
Local Open Scope list_scope.

(* ===================================================================== *)
(** * JavaScript data *)
(* ===================================================================== *)

Module JS.

(** A JavaScript number. *)
Definition num := float.

(** [a >= b] on numbers; false as soon as one side is NaN. *)
Definition geb (a b : num) : bool := PrimFloat.leb b a.

(** [a < b] on strings: the ECMAScript comparison walks both strings
    code unit by code unit; a proper prefix is smaller. *)
Fixpoint str_lt (a b : string) : bool :=
  match a, b with
  | _, EmptyString => false
  | EmptyString, String _ _ => true
  | String c a', String d b' =>
      if (nat_of_ascii c <? nat_of_ascii d)%nat then true
      else if (nat_of_ascii d <? nat_of_ascii c)%nat then false
      else str_lt a' b'
  end.

(** The values a client may put in a message field. *)
#[warnings="-register-all"]
Inductive value :=
| VUndefined
| VNull
| VBool (b : bool)
| VNum (n : num)
| VStr (s : string)
| VArr (items : list value)
| VObj (fields : list (string * value)).

(** ToBoolean. *)
Definition truthy (v : value) : bool :=
  match v with
  | VUndefined | VNull => false
  | VBool b => b
  | VNum n => negb (PrimFloat.eqb n 0 || PrimFloat.is_nan n)
  | VStr s => negb (String.eqb s "")
  | VArr _ | VObj _ => true
  end.

(** An object used as a dictionary with string keys: own properties in
    insertion order (the keys of this program are socket ids and room
    names, never array indices). *)
Section Obj.
Variable V : Type.

Definition obj := list (string * V).

(** [o[k]], [None] standing for [undefined]. *)
Fixpoint get (o : obj) (k : string) : option V :=
  match o with
  | [] => None
  | (k', v) :: o' => if String.eqb k k' then Some v else get o' k
  end.

(** [o[k] = v]: an existing key keeps its place. *)
Fixpoint set (o : obj) (k : string) (v : V) : obj :=
  match o with
  | [] => [(k, v)]
  | (k', v') :: o' =>
      if String.eqb k k' then (k', v) :: o' else (k', v') :: set o' k v
  end.

(** [delete o[k]]. *)
Fixpoint delete (o : obj) (k : string) : obj :=
  match o with
  | [] => []
  | (k', v') :: o' =>
      if String.eqb k k' then delete o' k else (k', v') :: delete o' k
  end.

(** [Object.keys(o)] and [Object.values(o)]. *)
Definition keys (o : obj) : list string := map fst o.
Definition values (o : obj) : list V := map snd o.
End Obj.

(** [arr.includes(k)] on an array of strings. *)
Definition includes (arr : list string) (k : string) : bool :=
  existsb (String.eqb k) arr.

End JS.

(* ===================================================================== *)
(** * Phaser.Math.Distance.Between *)
(* ===================================================================== *)

Module Phaser.

(** The library function called by [checkProximity]:
    [dx = x1 - x2; dy = y1 - y2; Math.sqrt(dx * dx + dy * dy)]. *)
Definition Between (x1 y1 x2 y2 : JS.num) : JS.num :=
  let dx := (x1 - x2)%float in
  let dy := (y1 - y2)%float in
  PrimFloat.sqrt (dx * dx + dy * dy)%float.

End Phaser.

(* ===================================================================== *)
(** * Effects: a handler returns the new state and what it emitted *)
(* ===================================================================== *)

(** [arr.forEach(a => f(a))] over a handler [f] that updates a state and
    emits effects. *)
Fixpoint forEach {A S E : Type} (arr : list A) (f : S -> A -> S * list E)
  (s : S) : S * list E :=
  match arr with
  | [] => (s, [])
  | a :: arr' =>
      let '(s1, e1) := f s a in
      let '(s2, e2) := forEach arr' f s1 in
      (s2, e1 ++ e2)
  end.

(** How many of the emitted effects satisfy [p]. *)
Definition count {E : Type} (p : E -> bool) (es : list E) : nat :=
  List.length (filter p es).

(* ===================================================================== *)
(** * The server: [setupSocketHandler] *)
(* ===================================================================== *)

Module Server.

(** A record of the [players] object. *)
Record player := { id : string; x : JS.num; y : JS.num; anim : string }.

(** The object a [PLAYER_MOVE] request carries: the two numbers and the
    text the scene sends, and the text under [id] when the sender put
    one in (the scene does not). *)
Record movement := {
  mx : JS.num; my : JS.num; manim : string; mid : option string
}.

(** The object a [WEBRTC_SIGNAL] request carries: any two values,
    [VUndefined] standing for a property that is not there. *)
Record signalData := { targetId : JS.value; signal : JS.value }.

(** Server-to-client messages, one constructor per event name. The [id]
    of [PLAYER_MOVE] is the [id] property of the object emitted. *)
Inductive message :=
| PLAYERS_SYNC (players : JS.obj player)
| PLAYER_JOIN (p : player)
| PLAYER_MOVE (id : string) (d : movement)
| PLAYER_LEAVE (id : string)
| WEBRTC_SIGNAL (senderId : string) (signal : JS.value).

(** A message handed to the connection of one socket. *)
Definition emission := (string * message)%type.

(** The closure state [players] and socket.io's connected sockets. *)
Record state := { players : JS.obj player; sockets : list string }.

(** How a listener ends: it returns, having left a state and emitted
    messages, or a [TypeError] leaves it. *)
Inductive completion :=
| Returns (st : state) (out : list emission)
| Throws.

(** ** socket.io emitters

    Every socket sits alone in the room named by its own id, and the
    handler never joins another room. *)

Definition socket_emit (sid : string) (m : message) : list emission :=
  [(sid, m)].

Definition broadcast_emit (st : state) (sid : string) (m : message)
  : list emission :=
  map (fun s => (s, m))
      (filter (fun s => negb (String.eqb s sid)) (sockets st)).

Definition io_emit (st : state) (m : message) : list emission :=
  map (fun s => (s, m)) (sockets st).

(** [io.to(room)] of socket.io 4: an array names several rooms, any other
    value one room. *)
Definition rooms (room : JS.value) : list JS.value :=
  match room with
  | JS.VArr items => items
  | _ => [room]
  end.

(** The sockets found in the rooms [rs], room after room, each socket
    once; [seen] are the ones found already. Only a text names a room
    that has a socket in it. *)
Fixpoint roomSockets (st : state) (rs : list JS.value) (seen : list string)
  : list string :=
  match rs with
  | [] => []
  | JS.VStr r :: rest =>
      if JS.includes (sockets st) r && negb (JS.includes seen r)
      then r :: roomSockets st rest (r :: seen)
      else roomSockets st rest seen
  | _ :: rest => roomSockets st rest seen
  end.

(** [io.to(room).emit(...)]: without any room (an empty array) the
    adapter addresses every socket. *)
Definition io_to_emit (st : state) (room : JS.value) (m : message)
  : list emission :=
  match rooms room with
  | [] => io_emit st m
  | rs => map (fun s => (s, m)) (roomSockets st rs [])
  end.

(** ** Handlers *)

(** The record written on connection. *)
Definition spawn (sid : string) : player :=
  {| id := sid; x := 400%float; y := 300%float; anim := "idle" |}.

(** [io.on(EVENTS.CONNECT, socket => ...)], up to the listeners. *)
Definition onConnect (sid : string) (st : state) : state * list emission :=
  let players' := JS.set (players st) sid (spawn sid) in
  let st' := {| players := players'; sockets := sockets st |} in
  (st', socket_emit sid (PLAYERS_SYNC players')
        ++ broadcast_emit st' sid (PLAYER_JOIN (spawn sid))).

(** The [id] property of [{ id: socket.id, ...movementData }]: the spread
    comes second, so an [id] of the payload replaces the socket's. *)
Definition spreadId (sid : string) (d : movement) : string :=
  match mid d with
  | Some i => i
  | None => sid
  end.

(** [socket.on(EVENTS.PLAYER_MOVE, movementData => ...)]; [movementData]
    is [None] when the request brings no object (undefined or null), and
    reading [movementData.x] then throws. *)
Definition onPlayerMove (sid : string) (movementData : option movement)
  (st : state) : completion :=
  match JS.get (players st) sid with
  | Some p =>
      match movementData with
      | Some d =>
          let p' := {| id := id p; x := mx d; y := my d; anim := manim d |} in
          Returns {| players := JS.set (players st) sid p'; sockets := sockets st |}
                  (broadcast_emit st sid (PLAYER_MOVE (spreadId sid d) d))
      | None => Throws
      end
  | None => Returns st []
  end.

(** [socket.on(EVENTS.WEBRTC_SIGNAL, data => ...)]; [data] is [None] when
    the request brings no object (undefined or null): the guard reads
    [data.targetId] first, which then throws. *)
Definition onWebrtcSignal (sid : string) (data : option signalData)
  (st : state) : completion :=
  match data with
  | Some d =>
      if negb (JS.truthy (targetId d)) || negb (JS.truthy (signal d))
      then Returns st []
      else Returns st (io_to_emit st (targetId d) (WEBRTC_SIGNAL sid (signal d)))
  | None => Throws
  end.

(** [socket.on(EVENTS.DISCONNECT, () => ...)]. *)
Definition onDisconnect (sid : string) (st : state) : state * list emission :=
  let st' := {| players := JS.delete (players st) sid; sockets := sockets st |} in
  (st', io_emit st' (PLAYER_LEAVE sid)).

(** ** The event loop: socket.io opens and closes sockets around the
    connection and disconnection handlers. *)

Inductive input :=
| Connection (sid : string)
| PlayerMove (sid : string) (movementData : option movement)
| WebrtcSignal (sid : string) (data : option signalData)
| Disconnect (sid : string).

(** A listener that throws has assigned nothing and emitted nothing. *)
Definition settle (st : state) (c : completion) : state * list emission :=
  match c with
  | Returns st' out => (st', out)
  | Throws => (st, [])
  end.

Definition step (st : state) (i : input) : state * list emission :=
  match i with
  | Connection sid =>
      onConnect sid {| players := players st; sockets := sockets st ++ [sid] |}
  | PlayerMove sid movementData => settle st (onPlayerMove sid movementData st)
  | WebrtcSignal sid data => settle st (onWebrtcSignal sid data st)
  | Disconnect sid =>
      onDisconnect sid
        {| players := players st;
           sockets := filter (fun s => negb (String.eqb s sid)) (sockets st) |}
  end.

(** Does the listener of the input throw? Nothing catches the exception,
    so the process ends with it. *)
Definition throws (st : state) (i : input) : bool :=
  match i with
  | PlayerMove sid movementData =>
      match onPlayerMove sid movementData st with
      | Throws => true
      | Returns _ _ => false
      end
  | WebrtcSignal sid data =>
      match onWebrtcSignal sid data st with
      | Throws => true
      | Returns _ _ => false
      end
  | _ => false
  end.

Definition init : state := {| players := []; sockets := [] |}.

End Server.

(* ===================================================================== *)
(** * The client scene: [GameScene] *)
(* ===================================================================== *)

Module Scene.

(** What the scene reads of a Phaser sprite. *)
Record sprite := { x : JS.num; y : JS.num }.

(** [this.players], [this.myPlayerId], [this.player]. *)
Record scene := {
  players : JS.obj sprite;
  myPlayerId : option string;
  player : option sprite
}.

(** The constructor followed by [create()]: [socketId] is [socket.id],
    undefined until the socket is connected. *)
Definition create (socketId : option string) : scene :=
  {| players := []; myPlayerId := socketId; player := None |}.

Definition createMyPlayer (s : scene) (playerInfo : Server.player) : scene :=
  {| players := players s; myPlayerId := myPlayerId s;
     player := Some {| x := Server.x playerInfo; y := Server.y playerInfo |} |}.

Definition addOtherPlayer (s : scene) (playerInfo : Server.player) : scene :=
  {| players := JS.set (players s) (Server.id playerInfo)
                  {| x := Server.x playerInfo; y := Server.y playerInfo |};
     myPlayerId := myPlayerId s; player := player s |}.

Definition removePlayer (s : scene) (playerId : string) : scene :=
  match JS.get (players s) playerId with
  | Some _ => {| players := JS.delete (players s) playerId;
                 myPlayerId := myPlayerId s; player := player s |}
  | None => s
  end.

Definition updateOtherPlayer (s : scene) (pid : string) (d : Server.movement)
  : scene :=
  match JS.get (players s) pid with
  | Some _ => {| players := JS.set (players s) pid
                              {| x := Server.mx d; y := Server.my d |};
                 myPlayerId := myPlayerId s; player := player s |}
  | None => s
  end.

(** [player.id === this.myPlayerId]. *)
Definition isMe (s : scene) (p : Server.player) : bool :=
  match myPlayerId s with
  | Some me => String.eqb (Server.id p) me
  | None => false
  end.

(** The [PLAYERS_SYNC] listener. *)
Definition onPlayersSync (s : scene) (snapshot : JS.obj Server.player) : scene :=
  fold_left
    (fun s p => if isMe s p then createMyPlayer s p else addOtherPlayer s p)
    (JS.values snapshot) s.

(** The socket listeners registered by [create()]. *)
Definition on (s : scene) (m : Server.message) : scene :=
  match m with
  | Server.PLAYERS_SYNC ps => onPlayersSync s ps
  | Server.PLAYER_JOIN p => addOtherPlayer s p
  | Server.PLAYER_LEAVE pid => removePlayer s pid
  | Server.PLAYER_MOVE pid d => updateOtherPlayer s pid d
  | Server.WEBRTC_SIGNAL _ _ => s
  end.

Definition threshold : JS.num := 150%float.

(** Is the sprite stored under [pid] closer than the threshold? *)
Definition isClose (s : scene) (me : sprite) (pid : string) : bool :=
  match JS.get (players s) pid with
  | Some otherPlayer =>
      PrimFloat.ltb
        (Phaser.Between (x me) (y me) (x otherPlayer) (y otherPlayer))
        threshold
  | None => false
  end.

(** [checkProximity()]: [None] when it returns before emitting,
    otherwise the [closePlayers] array of the [proximityUpdate] event. *)
Definition checkProximity (s : scene) : option (list string) :=
  match player s with
  | None => None
  | Some me => Some (filter (isClose s me) (JS.keys (players s)))
  end.

End Scene.

(* ===================================================================== *)
(** * The WebRTC service and the [proximityUpdate] handler *)
(* ===================================================================== *)

Module WebRTC.

(** What the program sets on a [SimplePeer] instance. *)
Record peer := { initiator : bool }.

(** Calls into the SimplePeer library. *)
Inductive effect :=
| NewPeer (targetId : string) (initiator : bool)
| PeerSignal (senderId : string) (signal : JS.value)
| PeerDestroy (peerId : string).

(** [this.peers]. *)
Definition peers := JS.obj peer.

Definition createPeer (ps : peers) (targetId : string) (init : bool)
  : peers * list effect :=
  (JS.set ps targetId {| initiator := init |}, [NewPeer targetId init]).

Definition handleSignal (ps : peers) (senderId : string) (signal : JS.value)
  : peers * list effect :=
  let '(ps', e) :=
    match JS.get ps senderId with
    | None => createPeer ps senderId false
    | Some _ => (ps, [])
    end in
  (ps', e ++ [PeerSignal senderId signal]).

Definition removePeer (ps : peers) (peerId : string) : peers * list effect :=
  match JS.get ps peerId with
  | Some _ => (JS.delete ps peerId, [PeerDestroy peerId])
  | None => (ps, [])
  end.

(** Effect classifiers. *)
Definition isNewPeer (k : string) (e : effect) : bool :=
  match e with NewPeer t _ => String.eqb t k | _ => false end.

Definition isInitiation (k : string) (e : effect) : bool :=
  match e with NewPeer t i => String.eqb t k && i | _ => false end.

Definition isDestroy (k : string) (e : effect) : bool :=
  match e with PeerDestroy t => String.eqb t k | _ => false end.

End WebRTC.

Module App.

(** Body of [closePlayers.forEach(peerId => ...)]; [socketId] is
    [socket.id] of the connected socket. *)
Definition connectClose (socketId : string) (ps : WebRTC.peers)
  (peerId : string) : WebRTC.peers * list WebRTC.effect :=
  match JS.get ps peerId with
  | None =>
      if JS.str_lt socketId peerId
      then WebRTC.createPeer ps peerId true
      else (ps, [])
  | Some _ => (ps, [])
  end.

(** Body of [Object.keys(webRTCService.peers).forEach(peerId => ...)]. *)
Definition disconnectFar (closePlayers : list string) (ps : WebRTC.peers)
  (peerId : string) : WebRTC.peers * list WebRTC.effect :=
  if negb (JS.includes closePlayers peerId)
  then WebRTC.removePeer ps peerId
  else (ps, []).

(** The [proximityUpdate] listener. *)
Definition proximityUpdate (socketId : string) (closePlayers : list string)
  (ps : WebRTC.peers) : WebRTC.peers * list WebRTC.effect :=
  let '(ps1, e1) := forEach closePlayers (connectClose socketId) ps in
  let '(ps2, e2) := forEach (JS.keys ps1) (disconnectFar closePlayers) ps1 in
  (ps2, e1 ++ e2).

(** One frame of a client: the scene recomputes proximity and, when it
    emits, the listener runs. *)
Definition tick (socketId : string) (s : Scene.scene) (ps : WebRTC.peers)
  : WebRTC.peers * list WebRTC.effect :=
  match Scene.checkProximity s with
  | Some closePlayers => proximityUpdate socketId closePlayers ps
  | None => (ps, [])
  end.

End App.

(* ===================================================================== *)
(** * The zone strategy of the backend blueprint *)
(* ===================================================================== *)

Module Blueprint.

(** A rectangle of the [jitsiZones] map. *)
Record zone := { x : JS.num; y : JS.num; width : JS.num; height : JS.num }.

(** The parsed Tiled file, as far as [loadMap] reads it. *)
Record property := { name : string; value : string }.
Record tiledObject := {
  ox : JS.num; oy : JS.num; owidth : JS.num; oheight : JS.num;
  properties : option (list property)
}.
Record layer := { lname : string; objects : option (list tiledObject) }.
Record mapData := { layers : list layer }.

(** [jitsiZones]: a [Map], iterated in insertion order; [Map.set] on a
    present key replaces the value where the key stands. *)
Definition zoneTable := JS.obj zone.

Definition loadObject (jz : zoneTable) (o : tiledObject) : zoneTable :=
  match properties o with
  | Some props =>
      match find (fun prop => String.eqb (name prop) "jitsiRoom") props with
      | Some jitsiProp =>
          JS.set jz (value jitsiProp)
            {| x := ox o; y := oy o; width := owidth o; height := oheight o |}
      | None => jz
      end
  | None => jz
  end.

Definition loadMap (md : mapData) (jz : zoneTable) : zoneTable :=
  match find (fun l => String.eqb (lname l) "Triggers") (layers md) with
  | Some triggerLayer =>
      match objects triggerLayer with
      | Some objs => fold_left loadObject objs jz
      | None => jz
      end
  | None => jz
  end.

(** The bounding-box test of [getJitsiRoomForPosition]. *)
Definition inside (z : zone) (px py : JS.num) : bool :=
  JS.geb px (x z) && PrimFloat.leb px (x z + width z)%float
  && JS.geb py (y z) && PrimFloat.leb py (y z + height z)%float.

Fixpoint getJitsiRoomForPosition (jz : zoneTable) (px py : JS.num)
  : option string :=
  match jz with
  | [] => None
  | (roomName, z) :: rest =>
      if inside z px py then Some roomName
      else getJitsiRoomForPosition rest px py
  end.

(** ** The state manager: Redis hashes, field by field *)

Definition hash := JS.obj string.
Definition redis := JS.obj hash.

Definition playerKey (socketId : string) : string :=
  ("player:" ++ socketId)%string.

(** [hGetAll] answers an empty object for a missing key. *)
Definition hGetAll (db : redis) (key : string) : hash :=
  match JS.get db key with Some h => h | None => [] end.

Definition hSet (db : redis) (key field v : string) : redis :=
  JS.set db key (JS.set (hGetAll db key) field v).

(** [getPlayer] hands back the answer of [hGetAll], which is an object
    even for a missing key: the null of its return type never occurs. *)
Definition getPlayer (db : redis) (socketId : string) : option hash :=
  Some (hGetAll db (playerKey socketId)).

(** [jitsiRoom || 'null']. *)
Definition orNull (jitsiRoom : option string) : string :=
  match jitsiRoom with
  | Some r => if String.eqb r "" then "null" else r
  | None => "null"
  end.

Definition setPlayerJitsiRoom (db : redis) (socketId : string)
  (jitsiRoom : option string) : redis :=
  hSet db (playerKey socketId) "currentJitsiRoom" (orNull jitsiRoom).

(** Events sent to the moving socket; the room of [leave-jitsi] is the
    stored field, undefined when the hash has none. *)
Inductive emit :=
| join_jitsi (roomName : string)
| leave_jitsi (roomName : option string).

(** [currentJitsiRoom === newJitsiRoom]: the left side is a string or
    undefined, the right side a string or null. *)
Definition strictEq (current new : option string) : bool :=
  match current, new with
  | Some a, Some b => String.eqb a b
  | _, _ => false
  end.

(** [if (newJitsiRoom)]. *)
Definition entered (new : option string) : option string :=
  match new with
  | Some r => if String.eqb r "" then None else Some r
  | None => None
  end.

Definition checkJitsiZone (db : redis) (jz : zoneTable) (socketId : string)
  (newX newY : JS.num) : redis * list emit :=
  match getPlayer db socketId with
  | None => (db, [])
  | Some player =>
      let currentJitsiRoom := JS.get player "currentJitsiRoom" in
      let newJitsiRoom := getJitsiRoomForPosition jz newX newY in
      if strictEq currentJitsiRoom newJitsiRoom then (db, [])
      else
        match entered newJitsiRoom with
        | Some r =>
            (setPlayerJitsiRoom db socketId (Some r), [join_jitsi r])
        | None =>
            (setPlayerJitsiRoom db socketId None,
             [leave_jitsi currentJitsiRoom])
        end
  end.

(** The stored membership of a socket. *)
Definition membership (db : redis) (socketId : string) : option string :=
  JS.get (hGetAll db (playerKey socketId)) "currentJitsiRoom".

Definition isLeave (room : string) (e : emit) : bool :=
  match e with
  | leave_jitsi (Some r) => String.eqb r room
  | _ => false
  end.

Definition isJoin (room : string) (e : emit) : bool :=
  match e with
  | join_jitsi r => String.eqb r room
  | _ => false
  end.

End Blueprint.

(* ===================================================================== *)
(** * Notions used in the statements *)
(* ===================================================================== *)

(** The sprite made from the last record of [rs] whose [id] is [k]: the
    one a scene is left with after the records were handled in order. *)
Fixpoint lastSprite (rs : list Server.player) (k : string)
  : option Scene.sprite :=
  match rs with
  | [] => None
  | p :: rs' =>
      match lastSprite rs' k with
      | Some sp => Some sp
      | None =>
          if String.eqb (Server.id p) k
          then Some {| Scene.x := Server.x p; Scene.y := Server.y p |}
          else None
      end
  end.

(** [neighbors(P)], computed on the scene of [P]: the [closePlayers]
    array that [checkProximity] emits, nobody when it returns before
    emitting. *)
Definition neighbors (s : Scene.scene) : list string :=
  match Scene.checkProximity s with
  | Some closePlayers => closePlayers
  | None => []
  end.

(** The scene of the player [P] shows a snapshot of player positions: its
    own sprite stands where the snapshot has [P], and it holds a sprite
    for every other player of the snapshot, where the snapshot has that
    player, and for nobody else. *)
Definition shows (s : Scene.scene) (snapshot : JS.obj Scene.sprite)
  (P : string) : Prop :=
  Scene.player s = JS.get snapshot P
  /\ forall k,
       JS.get (Scene.players s) k
       = if String.eqb k P then None else JS.get snapshot k.

(** The Euclidean distance of two positions, written out. *)
Definition distance (p q : Scene.sprite) : JS.num :=
  PrimFloat.sqrt
    ((Scene.x p - Scene.x q) * (Scene.x p - Scene.x q)
     + (Scene.y p - Scene.y q) * (Scene.y p - Scene.y q))%float.

(** Three positions on a line, and how the clients of A and of B see
    them. *)
Definition linePositions : JS.obj Scene.sprite :=
  [ ("A", {| Scene.x := 0%float; Scene.y := 0%float |});
    ("B", {| Scene.x := 10%float; Scene.y := 0%float |});
    ("C", {| Scene.x := 1000%float; Scene.y := 0%float |}) ].

Definition lineViewOfA : Scene.scene :=
  {| Scene.players :=
       [ ("B", {| Scene.x := 10%float; Scene.y := 0%float |});
         ("C", {| Scene.x := 1000%float; Scene.y := 0%float |}) ];
     Scene.myPlayerId := Some "A";
     Scene.player := Some {| Scene.x := 0%float; Scene.y := 0%float |} |}.

Definition lineViewOfB : Scene.scene :=
  {| Scene.players :=
       [ ("A", {| Scene.x := 0%float; Scene.y := 0%float |});
         ("C", {| Scene.x := 1000%float; Scene.y := 0%float |}) ];
     Scene.myPlayerId := Some "B";
     Scene.player := Some {| Scene.x := 10%float; Scene.y := 0%float |} |}.

(** Two scenes that show no common snapshot: the registry has A at
    (0, 0) and Q at (160, 0), and each client has its own sprite 16 lower
    than the other client has it. *)
Definition shiftedViewOfA : Scene.scene :=
  {| Scene.players := [ ("Q", {| Scene.x := 160%float; Scene.y := 0%float |}) ];
     Scene.myPlayerId := Some "A";
     Scene.player := Some {| Scene.x := 16%float; Scene.y := 16%float |} |}.

Definition shiftedViewOfQ : Scene.scene :=
  {| Scene.players := [ ("A", {| Scene.x := 0%float; Scene.y := 0%float |}) ];
     Scene.myPlayerId := Some "Q";
     Scene.player := Some {| Scene.x := 160%float; Scene.y := 16%float |} |}.

(** Three players on a line: A and B are 10 apart, C is far away. *)
Definition lineSnapshot : JS.obj Server.player :=
  [ ("A", {| Server.id := "A"; Server.x := 0%float; Server.y := 0%float;
             Server.anim := "idle" |});
    ("B", {| Server.id := "B"; Server.x := 10%float; Server.y := 0%float;
             Server.anim := "walk" |});
    ("C", {| Server.id := "C"; Server.x := 1000%float; Server.y := 0%float;
             Server.anim := "idle" |}) ].

(** The side of the pair [{a, b}] that the tie-break designates. *)
Definition initiatorOf (a b : string) : string :=
  if JS.str_lt a b then a else b.

(** The player A of [lineSnapshot], connected to B as initiator. *)
Definition peersOfA : WebRTC.peers := [("B", {| WebRTC.initiator := true |})].

(** The server after A, B and C connected and B and C moved. *)
Definition lineServer : Server.state :=
  {| Server.players := lineSnapshot; Server.sockets := ["A"; "B"; "C"] |}.

(** The scene of A synchronised on [lineSnapshot]. *)
Definition sceneOfA : Scene.scene :=
  Scene.onPlayersSync (Scene.create (Some "A")) lineSnapshot.

(** ** The statements that the code does not meet, as they are worded *)

(** "Registering an already-present id never silently overwrites the
    existing record." *)
Definition register_keeps_existing_record : Prop :=
  forall (sid : string) (st : Server.state) (p : Server.player),
    JS.get (Server.players st) sid = Some p ->
    JS.get (Server.players (fst (Server.onConnect sid st))) sid = Some p.

(** "For every signal request, the relay delivers the payload to the
    target's connection", whatever the payload is. *)
Definition relay_delivers_every_payload : Prop :=
  forall (sid : string) (data : Server.signalData) (st : Server.state)
         (t : string),
    Server.targetId data = JS.VStr t ->
    JS.truthy (Server.targetId data) = true ->
    In t (Server.sockets st) ->
    snd (Server.step st (Server.WebrtcSignal sid (Some data)))
    = [(t, Server.WEBRTC_SIGNAL sid (Server.signal data))].

(** A request to the connected socket B whose payload is the number 0. *)
Definition zeroSignal : Server.signalData :=
  {| Server.targetId := JS.VStr "B"; Server.signal := JS.VNum 0%float |}.

(** A request to B carrying an offer. *)
Definition offerSignal : Server.signalData :=
  {| Server.targetId := JS.VStr "B";
     Server.signal := JS.VObj [("type", JS.VStr "offer")] |}.

(** "Whenever the stored membership was Z and the new position is no
    longer inside Z, exactly one leave event naming Z is emitted." *)
Definition leaving_emits_one_close : Prop :=
  forall (db : Blueprint.redis) (jz : Blueprint.zoneTable) (sid Z : string)
         (rect : Blueprint.zone) (px py : JS.num),
    Blueprint.membership db sid = Some Z ->
    JS.get jz Z = Some rect ->
    Blueprint.inside rect px py = false ->
    count (Blueprint.isLeave Z)
      (snd (Blueprint.checkJitsiZone db jz sid px py)) = 1.

(** Two conference rooms. *)
Definition conf1 : Blueprint.zone :=
  {| Blueprint.x := 0%float; Blueprint.y := 0%float;
     Blueprint.width := 50%float; Blueprint.height := 50%float |}.

Definition conf2 : Blueprint.zone :=
  {| Blueprint.x := 100%float; Blueprint.y := 100%float;
     Blueprint.width := 50%float; Blueprint.height := 50%float |}.

Definition oneZone : Blueprint.zoneTable := [("conf1", conf1)].
Definition twoZones : Blueprint.zoneTable := [("conf1", conf1); ("conf2", conf2)].

(** The hash of socket s1, as [addPlayer] writes the room field and as it
    stands once s1 has entered conf1. *)
Definition freshDb : Blueprint.redis :=
  [("player:s1", [("currentJitsiRoom", "null")])].

Definition inConf1 : Blueprint.redis :=
  [("player:s1", [("currentJitsiRoom", "conf1")])].

(** A Tiled file with two trigger rectangles that overlap. *)
Definition overlappingMap : Blueprint.mapData :=
  {| Blueprint.layers :=
       [ {| Blueprint.lname := "Floor"; Blueprint.objects := None |};
         {| Blueprint.lname := "Triggers";
            Blueprint.objects := Some
              [ {| Blueprint.ox := 0%float; Blueprint.oy := 0%float;
                   Blueprint.owidth := 50%float; Blueprint.oheight := 50%float;
                   Blueprint.properties := Some
                     [ {| Blueprint.name := "jitsiRoom";
                          Blueprint.value := "first" |} ] |};
                {| Blueprint.ox := 40%float; Blueprint.oy := 40%float;
                   Blueprint.owidth := 50%float; Blueprint.oheight := 50%float;
                   Blueprint.properties := Some
                     [ {| Blueprint.name := "jitsiRoom";
                          Blueprint.value := "second" |} ] |};
                {| Blueprint.ox := 0%float; Blueprint.oy := 0%float;
                   Blueprint.owidth := 10%float; Blueprint.oheight := 10%float;
                   Blueprint.properties := None |} ] |} ] |}.

(** The registry is well formed when every key occurs once and every
    record carries its key as [id]. *)
Definition wellKeyed (ps : JS.obj Server.player) : Prop :=
  NoDup (JS.keys ps) /\ forall k p, In (k, p) ps -> Server.id p = k.

(** The states the event loop can reach from the initial one. *)
Inductive reachable : Server.state -> Prop :=
| reach_init : reachable Server.init
| reach_step st i : reachable st -> reachable (fst (Server.step st i)).

(** The sprite a scene makes of a record. *)
Definition spriteOf (p : Server.player) : Scene.sprite :=
  {| Scene.x := Server.x p; Scene.y := Server.y p |}.

(** The positions a registry holds. *)
Definition positionsOf (ps : JS.obj Server.player) : JS.obj Scene.sprite :=
  map (fun e => (fst e, spriteOf (snd e))) ps.

(** The lexicographic order, spelled out: [a] is a proper prefix of [b],
    or the two strings differ first at a place where [a] has the smaller
    code unit. *)
Definition lexLess (a b : string) : Prop :=
  (exists c rest, b = (a ++ String c rest)%string)
  \/ (exists pre x a' y b',
        a = (pre ++ String x a')%string
        /\ b = (pre ++ String y b')%string
        /\ nat_of_ascii x < nat_of_ascii y).

(** ** Runs of the event loop, alone and with the scene of one socket *)

(** The server after a sequence of inputs: the state it has when the
    inputs are used up, or the one it had when a listener threw. *)
Fixpoint runServer (st : Server.state) (inputs : list Server.input)
  : Server.state :=
  match inputs with
  | [] => st
  | i :: rest =>
      if Server.throws st i then st
      else runServer (fst (Server.step st i)) rest
  end.

(** The scene of socket [q] handles the messages emitted to [q], in the
    order of emission. *)
Definition deliver (q : string) (out : list Server.emission) (s : Scene.scene)
  : Scene.scene :=
  fold_left
    (fun s e => if String.eqb (fst e) q then Scene.on s (snd e) else s)
    out s.

(** The event loop with the scene of [q] listening, up to the end of
    the inputs or to the listener that throws. *)
Fixpoint serve (q : string) (inputs : list Server.input) (st : Server.state)
  (s : Scene.scene) : Server.state * Scene.scene :=
  match inputs with
  | [] => (st, s)
  | i :: rest =>
      if Server.throws st i then (st, s)
      else serve q rest (fst (Server.step st i))
             (deliver q (snd (Server.step st i)) s)
  end.

(** A session of [q] whose scene was created while the socket was still
    connecting, so that [create()] read an undefined [socket.id]: the
    server is in the state [st] when the connection of [q] arrives, and
    handles [after] next. *)
Definition session (q : string) (st : Server.state)
  (after : list Server.input) : Server.state * Scene.scene :=
  serve q (Server.Connection q :: after) st (Scene.create None).

(** The scene shows every other registered player where the registry has
    it, and nobody else. *)
Definition mirrors (st : Server.state) (s : Scene.scene) (q : string) : Prop :=
  forall k, k <> q ->
    JS.get (Scene.players s) k
    = option_map spriteOf (JS.get (Server.players st) k).

(** The same ids have a record and a connected socket. *)
Definition registryMatchesSockets (st : Server.state) : Prop :=
  forall k, In k (JS.keys (Server.players st)) <-> In k (Server.sockets st).

(** A short run: B connects and walks, C connects and leaves. *)
Definition walkOfB : Server.movement :=
  {| Server.mx := 410%float; Server.my := 300%float; Server.manim := "walk";
     Server.mid := None |}.

Definition shortRun : list Server.input :=
  [ Server.Connection "B"; Server.PlayerMove "B" (Some walkOfB);
    Server.Connection "C"; Server.Disconnect "C" ].

(** The walk of B again, sent under the name of C. *)
Definition walkAsC : Server.movement :=
  {| Server.mx := 410%float; Server.my := 300%float; Server.manim := "walk";
     Server.mid := Some "C" |}.

(** What holds between the server and the scene of a connected socket
    [q] that follows it. *)
Definition attached (st : Server.state) (s : Scene.scene) (q : string) : Prop :=
  NoDup (Server.sockets st)
  /\ In q (Server.sockets st)
  /\ mirrors st s q.

(** An input that socket.io can hand to the handlers in state [st] while
    [q] stays connected: a connection has an id that no connected socket
    has, and a move names its own socket when it names one at all. *)
Definition admissible (st : Server.state) (q : string) (i : Server.input)
  : Prop :=
  match i with
  | Server.Connection sid => ~ In sid (Server.sockets st)
  | Server.Disconnect sid => sid <> q
  | Server.PlayerMove sid (Some d) => Server.spreadId sid d = sid
  | _ => True
  end.

Fixpoint admissibleRun (st : Server.state) (q : string)
  (inputs : list Server.input) : Prop :=
  match inputs with
  | [] => True
  | i :: rest =>
      admissible st q i
      /\ (if Server.throws st i then True
          else admissibleRun (fst (Server.step st i)) q rest)
  end.

(** Inputs after the connection of A to the server that handled
    [shortRun]. *)
Definition laterRun : list Server.input :=
  [ Server.PlayerMove "B" (Some walkOfB); Server.Connection "D";
    Server.Disconnect "B" ].

(** ** The listeners of [App.jsx] as one event handler *)

Module Client.

(** What reaches the WebRTC service: a [proximityUpdate] of the scene or
    a [WEBRTC_SIGNAL] of the server. *)
Inductive event :=
| ProximityUpdate (closePlayers : list string)
| Signal (senderId : string) (signal : JS.value).

Definition handle (socketId : string) (ps : WebRTC.peers) (e : event)
  : WebRTC.peers * list WebRTC.effect :=
  match e with
  | ProximityUpdate closePlayers => App.proximityUpdate socketId closePlayers ps
  | Signal senderId signal => WebRTC.handleSignal ps senderId signal
  end.

(** The [WEBRTC_SIGNAL] listener of [App.jsx], on the messages of the
    server; the other messages are for the scene. *)
Definition receive (ps : WebRTC.peers) (m : Server.message)
  : WebRTC.peers * list WebRTC.effect :=
  match m with
  | Server.WEBRTC_SIGNAL senderId signal => WebRTC.handleSignal ps senderId signal
  | _ => (ps, [])
  end.

(** The service starts without peers. *)
Definition run (socketId : string) (events : list event)
  : WebRTC.peers * list WebRTC.effect :=
  forEach events (handle socketId) [].

End Client.

(** Every initiating peer is for an id above one's own. *)
Definition initiatesUpward (me : string) (ps : WebRTC.peers) : Prop :=
  forall k p,
    JS.get ps k = Some p -> WebRTC.initiator p = true -> JS.str_lt me k = true.

(** A history of the client A: B comes close, B's answer arrives, B goes
    away; and of the client B: A's offer arrives, A is close. *)
Definition historyOfA : list Client.event :=
  [ Client.ProximityUpdate ["B"];
    Client.Signal "B" (JS.VObj [("type", JS.VStr "answer")]);
    Client.ProximityUpdate [] ].

Definition historyOfB : list Client.event :=
  [ Client.Signal "A" (JS.VObj [("type", JS.VStr "offer")]);
    Client.ProximityUpdate ["A"] ].

(** ** The trigger objects of a Tiled file *)

(** The objects [loadMap] walks: those of the first layer called
    Triggers, none when the layer or its object list is missing. *)
Definition triggerObjects (md : Blueprint.mapData) : list Blueprint.tiledObject :=
  match find (fun l => String.eqb (Blueprint.lname l) "Triggers")
             (Blueprint.layers md) with
  | Some triggerLayer =>
      match Blueprint.objects triggerLayer with
      | Some objs => objs
      | None => []
      end
  | None => []
  end.

(** The room an object names, by its first property called jitsiRoom,
    with the rectangle of the object. *)
Definition zoneEntry (o : Blueprint.tiledObject)
  : option (string * Blueprint.zone) :=
  match Blueprint.properties o with
  | Some props =>
      match find (fun prop => String.eqb (Blueprint.name prop) "jitsiRoom")
                 props with
      | Some jitsiProp =>
          Some (Blueprint.value jitsiProp,
                {| Blueprint.x := Blueprint.ox o; Blueprint.y := Blueprint.oy o;
                   Blueprint.width := Blueprint.owidth o;
                   Blueprint.height := Blueprint.oheight o |})
      | None => None
      end
  | None => None
  end.

Definition zoneEntries (objs : list Blueprint.tiledObject)
  : list (string * Blueprint.zone) :=
  flat_map (fun o => match zoneEntry o with Some e => [e] | None => [] end) objs.

(** The value of the last entry written under the key [k]. *)
Fixpoint lastValue {V : Type} (entries : list (string * V)) (k : string)
  : option V :=
  match entries with
  | [] => None
  | (k', v) :: rest =>
      match lastValue rest k with
      | Some v' => Some v'
      | None => if String.eqb k' k then Some v else None
      end
  end.

(** The names of [names] that are not in [seen], each at its first
    occurrence. *)
Fixpoint firstOccurrences (names seen : list string) : list string :=
  match names with
  | [] => []
  | n :: rest =>
      if JS.includes seen n then firstOccurrences rest seen
      else n :: firstOccurrences rest (seen ++ [n])
  end.

(** A Tiled file that draws the room first twice. *)
Definition redrawnMap : Blueprint.mapData :=
  {| Blueprint.layers :=
       [ {| Blueprint.lname := "Triggers";
            Blueprint.objects := Some
              [ {| Blueprint.ox := 0%float; Blueprint.oy := 0%float;
                   Blueprint.owidth := 50%float; Blueprint.oheight := 50%float;
                   Blueprint.properties := Some
                     [ {| Blueprint.name := "jitsiRoom";
                          Blueprint.value := "first" |} ] |};
                {| Blueprint.ox := 40%float; Blueprint.oy := 40%float;
                   Blueprint.owidth := 50%float; Blueprint.oheight := 50%float;
                   Blueprint.properties := Some
                     [ {| Blueprint.name := "jitsiRoom";
                          Blueprint.value := "second" |} ] |};
                {| Blueprint.ox := 200%float; Blueprint.oy := 200%float;
                   Blueprint.owidth := 10%float; Blueprint.oheight := 10%float;
                   Blueprint.properties := Some
                     [ {| Blueprint.name := "jitsiRoom";
                          Blueprint.value := "first" |} ] |} ] |} ] |}.

(** ** The state manager of the blueprint: Redis hashes and sets *)

Module StateManager.

(** The two kinds of keys the state manager uses. *)
Record store := { hashes : Blueprint.redis; sets : JS.obj (list string) }.

(** [hSet(key, object)]: the fields are written one by one into the hash,
    whose other fields stay. *)
Definition hSetAll (db : Blueprint.redis) (key : string)
  (fields : list (string * string)) : Blueprint.redis :=
  fold_left (fun db f => Blueprint.hSet db key (fst f) (snd f)) fields db.

Definition hGet (db : Blueprint.redis) (key field : string) : option string :=
  JS.get (Blueprint.hGetAll db key) field.

Definition del (db : Blueprint.redis) (key : string) : Blueprint.redis :=
  JS.delete db key.

Definition sMembers (ss : JS.obj (list string)) (key : string) : list string :=
  match JS.get ss key with Some l => l | None => [] end.

Definition sAdd (ss : JS.obj (list string)) (key member : string)
  : JS.obj (list string) :=
  if JS.includes (sMembers ss key) member then ss
  else JS.set ss key (sMembers ss key ++ [member]).

Definition sRem (ss : JS.obj (list string)) (key member : string)
  : JS.obj (list string) :=
  match JS.get ss key with
  | Some l => JS.set ss key (filter (fun m => negb (String.eqb m member)) l)
  | None => ss
  end.

Definition roomKey (roomId : string) : string :=
  ("room:" ++ roomId ++ ":players")%string.

(** The object [newPlayer], its numbers as Redis stores them. *)
Definition newPlayer (socketId username role : string)
  : list (string * string) :=
  [ ("id", socketId); ("username", username); ("role", role);
    ("x", "100"); ("y", "100"); ("direction", "down");
    ("currentRoom", "main_office"); ("currentJitsiRoom", "null") ].

Definition addPlayer (st : store) (socketId username role : string)
  : store * list (string * string) :=
  ({| hashes := hSetAll (hashes st) (Blueprint.playerKey socketId)
                  (newPlayer socketId username role);
      sets := sAdd (sets st) "room:main_office:players" socketId |},
   newPlayer socketId username role).

Definition removePlayer (st : store) (socketId : string) : store :=
  let room := hGet (hashes st) (Blueprint.playerKey socketId) "currentRoom" in
  let sets' :=
    match room with
    | Some r => if String.eqb r "" then sets st
                else sRem (sets st) (roomKey r) socketId
    | None => sets st
    end in
  {| hashes := del (hashes st) (Blueprint.playerKey socketId); sets := sets' |}.

Definition getPlayersInRoom (st : store) (roomId : string)
  : list Blueprint.hash :=
  flat_map
    (fun id => match Blueprint.getPlayer (hashes st) id with
               | Some player => [player]
               | None => []
               end)
    (sMembers (sets st) (roomKey roomId)).

Definition empty : store := {| hashes := []; sets := [] |}.

End StateManager.

(* ===================================================================== *)
(** * Properties of the JavaScript data *)
(* ===================================================================== *)

Section ObjFacts.
Variable V : Type.
Implicit Types (o : JS.obj V) (k : string) (v : V).

Lemma get_set_same o k v : JS.get (JS.set o k v) k = Some v.
Proof.
  induction o as [|[k' v'] o IH]; simpl.
  - now rewrite String.eqb_refl.
  - destruct (String.eqb k k') eqn:E; simpl; rewrite E; auto.
Qed.

Lemma get_set_other o k k' v :
  k <> k' -> JS.get (JS.set o k v) k' = JS.get o k'.
Proof.
  intros N. induction o as [|[k0 v0] o IH]; simpl.
  - destruct (String.eqb_spec k' k); congruence.
  - destruct (String.eqb_spec k k0) as [->|]; simpl.
    + destruct (String.eqb_spec k' k0); congruence.
    + now rewrite IH.
Qed.

Lemma get_delete_same o k : JS.get (JS.delete o k) k = None.
Proof.
  induction o as [|[k' v'] o IH]; simpl; [reflexivity|].
  destruct (String.eqb k k') eqn:E; simpl; [|rewrite E]; exact IH.
Qed.

Lemma get_delete_other o k k' :
  k <> k' -> JS.get (JS.delete o k) k' = JS.get o k'.
Proof.
  intros N. induction o as [|[k0 v0] o IH]; simpl; [reflexivity|].
  destruct (String.eqb_spec k k0) as [->|]; simpl.
  - destruct (String.eqb_spec k' k0); congruence.
  - now rewrite IH.
Qed.

Lemma get_Some_In o k v : JS.get o k = Some v -> In (k, v) o.
Proof.
  induction o as [|[k' v'] o IH]; simpl; [discriminate|].
  destruct (String.eqb_spec k k') as [->|]; intros H.
  - left. congruence.
  - right. auto.
Qed.

Lemma get_Some_values o k v : JS.get o k = Some v -> In v (JS.values o).
Proof.
  intros H. apply get_Some_In in H.
  unfold JS.values. change v with (snd (k, v)). now apply in_map.
Qed.

Lemma get_None_keys o k : JS.get o k = None <-> ~ In k (JS.keys o).
Proof.
  induction o as [|[k' v'] o IH]; simpl; [tauto|].
  destruct (String.eqb_spec k k') as [->|N].
  - split; [discriminate | intros H; exfalso; apply H; now left].
  - rewrite IH. split; intros H; [intros [E|I]; [congruence | tauto] | tauto].
Qed.
End ObjFacts.

Lemma includes_In arr k : JS.includes arr k = true <-> In k arr.
Proof.
  unfold JS.includes. rewrite existsb_exists. split.
  - intros [k' [I E]]. apply String.eqb_eq in E. now subst.
  - intros I. exists k. split; [assumption | apply String.eqb_refl].
Qed.

Lemma includes_false arr k : JS.includes arr k = false <-> ~ In k arr.
Proof.
  rewrite <- includes_In. destruct (JS.includes arr k); split; congruence.
Qed.

(** ** Keys of an object *)

Section KeyFacts.
Variable V : Type.
Implicit Types (o : JS.obj V) (k : string) (v : V).

Lemma keys_set o k v :
  JS.keys (JS.set o k v)
  = if JS.includes (JS.keys o) k then JS.keys o else JS.keys o ++ [k].
Proof.
  induction o as [|[k' v'] o IH]; simpl; [reflexivity|].
  unfold JS.includes. simpl existsb. fold (JS.includes (JS.keys o) k).
  destruct (String.eqb k k') eqn:E; simpl; [reflexivity|].
  rewrite IH. now destruct (JS.includes (JS.keys o) k).
Qed.

Lemma keys_delete o k :
  JS.keys (JS.delete o k)
  = filter (fun k' => negb (String.eqb k k')) (JS.keys o).
Proof.
  induction o as [|[k' v'] o IH]; simpl; [reflexivity|].
  destruct (String.eqb k k'); simpl; now rewrite IH.
Qed.

Lemma NoDup_keys_set o k v : NoDup (JS.keys o) -> NoDup (JS.keys (JS.set o k v)).
Proof.
  intros N. rewrite keys_set.
  destruct (JS.includes (JS.keys o) k) eqn:I; [assumption|].
  apply includes_false in I.
  apply NoDup_app; [assumption | repeat constructor; intros [] | ].
  intros x Hx [<-|[]]. contradiction.
Qed.

Lemma NoDup_keys_delete o k :
  NoDup (JS.keys o) -> NoDup (JS.keys (JS.delete o k)).
Proof. intros N. rewrite keys_delete. now apply NoDup_filter. Qed.

Lemma In_set o k v k' v' :
  In (k', v') (JS.set o k v) -> (k' = k /\ v' = v) \/ In (k', v') o.
Proof.
  induction o as [|[k0 v0] o IH]; simpl.
  - intros [E|[]]. left. split; congruence.
  - destruct (String.eqb_spec k k0) as [->|N]; simpl.
    + intros [E|I]; [left; split; congruence | auto].
    + intros [E|I]; [auto | destruct (IH I); auto].
Qed.

Lemma In_delete o k k' v' : In (k', v') (JS.delete o k) -> In (k', v') o.
Proof.
  induction o as [|[k0 v0] o IH]; simpl; [auto|].
  destruct (String.eqb k k0); simpl; intuition.
Qed.
End KeyFacts.

(** ** The string order is a strict total order *)

Lemma str_lt_irrefl a : JS.str_lt a a = false.
Proof.
  induction a as [|c a IH]; simpl; [reflexivity|].
  now rewrite Nat.ltb_irrefl.
Qed.

Lemma str_lt_total a b : a <> b -> JS.str_lt a b = negb (JS.str_lt b a).
Proof.
  revert b. induction a as [|c a IH]; intros [|d b] N; simpl; try congruence.
  destruct (Nat.ltb_spec (nat_of_ascii c) (nat_of_ascii d)) as [L|L];
    destruct (Nat.ltb_spec (nat_of_ascii d) (nat_of_ascii c)) as [L'|L'];
    try reflexivity; try lia.
  apply IH. intros ->. apply N. f_equal.
  rewrite <- (ascii_nat_embedding c), <- (ascii_nat_embedding d).
  f_equal. lia.
Qed.

Lemma str_lt_trans a b c :
  JS.str_lt a b = true -> JS.str_lt b c = true -> JS.str_lt a c = true.
Proof.
  revert b c. induction a as [|x a IH]; intros [|y b] [|z c]; simpl;
    try congruence.
  destruct (Nat.ltb_spec (nat_of_ascii x) (nat_of_ascii y));
    destruct (Nat.ltb_spec (nat_of_ascii y) (nat_of_ascii x));
    destruct (Nat.ltb_spec (nat_of_ascii y) (nat_of_ascii z));
    destruct (Nat.ltb_spec (nat_of_ascii z) (nat_of_ascii y));
    destruct (Nat.ltb_spec (nat_of_ascii x) (nat_of_ascii z));
    destruct (Nat.ltb_spec (nat_of_ascii z) (nat_of_ascii x));
    try congruence; try lia.
  apply IH.
Qed.

(** ** The string order is the lexicographic one *)

Lemma str_lt_lex a b : JS.str_lt a b = true <-> lexLess a b.
Proof.
  unfold lexLess. revert b. induction a as [|x a IH]; intros [|y b]; simpl.
  - split; [discriminate|].
    intros [(c & r & E)|(pre & x & a' & y & b' & E & _)].
    + discriminate.
    + destruct pre; discriminate.
  - split; [|reflexivity]. intros _. left. exists y, b. reflexivity.
  - split; [discriminate|].
    intros [(c & r & E)|(pre & x' & a' & y & b' & _ & E & _)].
    + discriminate.
    + destruct pre; discriminate.
  - destruct (Nat.ltb_spec (nat_of_ascii x) (nat_of_ascii y)) as [L|L].
    + split; [|reflexivity]. intros _. right.
      exists EmptyString, x, a, y, b. auto.
    + destruct (Nat.ltb_spec (nat_of_ascii y) (nat_of_ascii x)) as [L'|L'].
      * split; [discriminate|].
        intros [(c & r & E)|(pre & x' & a' & y' & b' & Ea & Eb & Hl)].
        -- injection E as -> _. lia.
        -- destruct pre as [|c pre]; simpl in Ea, Eb.
           ++ injection Ea as -> _. injection Eb as -> _. lia.
           ++ injection Ea as -> _. injection Eb as -> _. lia.
      * assert (x = y).
        { rewrite <- (ascii_nat_embedding x), <- (ascii_nat_embedding y).
          f_equal. lia. }
        subst y. rewrite IH. split.
        -- intros [(c & r & E)|(pre & x' & a' & y' & b' & Ea & Eb & Hl)].
           ++ left. exists c, r. now rewrite E.
           ++ right. exists (String x pre), x', a', y', b'.
              simpl. rewrite Ea, Eb. auto.
        -- intros [(c & r & E)|(pre & x' & a' & y' & b' & Ea & Eb & Hl)].
           ++ left. exists c, r. now injection E.
           ++ destruct pre as [|c pre]; simpl in Ea, Eb.
              ** injection Ea as -> _. injection Eb as -> _. lia.
              ** right. injection Ea as _ ->. injection Eb as _ ->.
                 exists pre, x', a', y', b'. auto.
Qed.

(** ** The distance does not depend on the order of its end points *)

Section Binary.
Variables prec emax : Z.

Lemma binary_round_aux_negb s m e l :
  binary_round_aux prec emax (negb s) m e l
  = SFopp (binary_round_aux prec emax s m e l).
Proof.
  unfold binary_round_aux.
  destruct (shr_fexp prec emax m e l) as [mrs' e'].
  destruct (shr_fexp prec emax _ e' loc_Exact) as [mrs'' e''].
  destruct (shr_m mrs''); simpl; try reflexivity.
  destruct (Z.leb e'' (Z.sub emax prec)); reflexivity.
Qed.

Lemma binary_round_negb s m e :
  binary_round prec emax (negb s) m e = SFopp (binary_round prec emax s m e).
Proof.
  unfold binary_round.
  destruct (shl_align m e _) as [mz ez].
  apply binary_round_aux_negb.
Qed.

Lemma binary_normalize_opp m e :
  binary_normalize prec emax (- m) e false
  = SFopp (binary_normalize prec emax m e false)
  \/ binary_normalize prec emax (- m) e false
     = binary_normalize prec emax m e false.
Proof.
  destruct m as [|p|p]; simpl.
  - right; reflexivity.
  - left. apply (binary_round_negb false).
  - left. rewrite <- (binary_round_negb true). reflexivity.
Qed.

(** Swapping the operands of a subtraction negates the result, or
    leaves it alone (a zero or a NaN). *)
Lemma SFsub_swap u v :
  SFsub prec emax v u = SFopp (SFsub prec emax u v)
  \/ SFsub prec emax v u = SFsub prec emax u v.
Proof.
  destruct u as [su|su| |su mu eu], v as [sv|sv| |sv mv ev]; simpl;
    try (destruct su, sv; simpl; auto; fail);
    try (destruct su; simpl; auto; fail);
    try (destruct sv; simpl; auto; fail);
    auto.
  all: try (left; rewrite ?Bool.negb_involutive; reflexivity).
  rewrite (Z.min_comm ev eu).
  set (a := cond_Zopp su _). set (b := cond_Zopp sv _).
  replace (b - a)%Z with (- (a - b))%Z by lia.
  apply binary_normalize_opp.
Qed.

Lemma SFmul_opp_sq w :
  SFmul prec emax (SFopp w) (SFopp w) = SFmul prec emax w w.
Proof.
  destruct w as [s|s| |s m e]; simpl; try reflexivity; destruct s; reflexivity.
Qed.

Lemma SFsq_sub_swap u v :
  SFmul prec emax (SFsub prec emax v u) (SFsub prec emax v u)
  = SFmul prec emax (SFsub prec emax u v) (SFsub prec emax u v).
Proof.
  destruct (SFsub_swap u v) as [H|H]; rewrite H;
    [apply SFmul_opp_sq | reflexivity].
Qed.
End Binary.

Lemma sq_sub_swap (a b : JS.num) :
  ((b - a) * (b - a) = (a - b) * (a - b))%float.
Proof.
  apply Prim2SF_inj. rewrite !mul_spec, !sub_spec. apply SFsq_sub_swap.
Qed.

Lemma Between_sym x1 y1 x2 y2 :
  Phaser.Between x1 y1 x2 y2 = Phaser.Between x2 y2 x1 y1.
Proof.
  unfold Phaser.Between. cbv zeta.
  now rewrite (sq_sub_swap x1 x2), (sq_sub_swap y1 y2).
Qed.

(* ===================================================================== *)
(** * Proximity on a snapshot *)
(* ===================================================================== *)

(** What the [PLAYERS_SYNC] listener leaves in a scene. *)
Lemma sync_fold me rs : forall s0,
  Scene.myPlayerId s0 = Some me ->
  let s := fold_left
             (fun s p => if Scene.isMe s p then Scene.createMyPlayer s p
                         else Scene.addOtherPlayer s p) rs s0 in
  Scene.myPlayerId s = Some me
  /\ Scene.player s
     = match lastSprite rs me with Some sp => Some sp | None => Scene.player s0 end
  /\ JS.get (Scene.players s) me = JS.get (Scene.players s0) me
  /\ forall k, k <> me ->
       JS.get (Scene.players s) k
       = match lastSprite rs k with
         | Some sp => Some sp
         | None => JS.get (Scene.players s0) k
         end.
Proof.
  induction rs as [|p rs IH]; intros s0 Hme; simpl.
  - repeat split; auto.
  - assert (Hm : Scene.isMe s0 p = String.eqb (Server.id p) me)
      by (unfold Scene.isMe; now rewrite Hme).
    rewrite Hm.
    destruct (String.eqb_spec (Server.id p) me) as [E|N].
    + destruct (IH (Scene.createMyPlayer s0 p) Hme) as (A & B & C & D).
      repeat split; auto.
      * rewrite B. destruct (lastSprite rs me); reflexivity.
      * intros k Nk. rewrite (D k Nk).
        destruct (lastSprite rs k); [reflexivity|].
        destruct (String.eqb_spec (Server.id p) k); [congruence | reflexivity].
    + destruct (IH (Scene.addOtherPlayer s0 p) Hme) as (A & B & C & D).
      repeat split; auto.
      * rewrite B. destruct (lastSprite rs me); reflexivity.
      * rewrite C. simpl. now apply get_set_other.
      * intros k Nk. rewrite (D k Nk).
        destruct (lastSprite rs k); [reflexivity|]. simpl.
        destruct (String.eqb_spec (Server.id p) k) as [->|N'].
        -- apply get_set_same.
        -- now apply get_set_other.
Qed.

(** Membership in [neighbors], read off a snapshot that the scene shows. *)
Lemma neighbors_In s snapshot P Q :
  shows s snapshot P ->
  (In Q (neighbors s) <->
   P <> Q /\ exists p q,
     JS.get snapshot P = Some p /\ JS.get snapshot Q = Some q
     /\ PrimFloat.ltb (distance p q) 150 = true).
Proof.
  intros [Hme Hothers].
  unfold neighbors, Scene.checkProximity. rewrite Hme.
  assert (Hclose : forall me,
            Scene.isClose s me Q
            = if String.eqb Q P then false
              else match JS.get snapshot Q with
                   | Some q => PrimFloat.ltb (distance me q) 150
                   | None => false
                   end).
  { intros me. unfold Scene.isClose. rewrite (Hothers Q).
    now destruct (String.eqb Q P). }
  split.
  - destruct (JS.get snapshot P) as [p|]; [|intros []].
    intros H. apply filter_In in H. destruct H as [_ H].
    rewrite Hclose in H.
    destruct (String.eqb_spec Q P) as [E|N]; [discriminate|].
    destruct (JS.get snapshot Q) as [q|]; [|discriminate].
    split; [congruence|]. now exists p, q.
  - intros (N & p & q & EP & EQ & H). rewrite EP.
    apply filter_In. split.
    + destruct (in_dec string_dec Q (JS.keys (Scene.players s))) as [I|I];
        [exact I|].
      apply get_None_keys in I. rewrite (Hothers Q), EQ in I.
      destruct (String.eqb_spec Q P); [congruence | discriminate].
    + rewrite Hclose, EQ.
      destruct (String.eqb_spec Q P); [congruence | exact H].
Qed.

Lemma distance_sym p q : distance p q = distance q p.
Proof.
  unfold distance.
  now rewrite (sq_sub_swap (Scene.x p) (Scene.x q)),
              (sq_sub_swap (Scene.y p) (Scene.y q)).
Qed.

(** C1. Proximity symmetry: take any snapshot of player positions and two
    players P and Q whose scenes show it, each with its own sprite where
    the snapshot has the player and with the other players where the
    snapshot has them. Then Q is in neighbors(P) exactly when P is in
    neighbors(Q), and neighbors(P), the list [checkProximity] emits,
    holds exactly the other players [k] of the snapshot whose Euclidean
    distance to P is strictly less than 150. *)
Theorem proximity_symmetry (snapshot : JS.obj Scene.sprite) (P Q : string)
  (sP sQ : Scene.scene)
  (HP : shows sP snapshot P) (HQ : shows sQ snapshot Q) :
  (In Q (neighbors sP) <-> In P (neighbors sQ))
  /\ (forall k,
        In k (neighbors sP) <->
        P <> k /\ exists p q,
          JS.get snapshot P = Some p /\ JS.get snapshot k = Some q
          /\ PrimFloat.ltb
               (PrimFloat.sqrt
                  ((Scene.x p - Scene.x q) * (Scene.x p - Scene.x q)
                   + (Scene.y p - Scene.y q) * (Scene.y p - Scene.y q))%float)
               150 = true).
Proof.
  split; [|intros k; exact (neighbors_In k HP)].
  rewrite (neighbors_In Q HP), (neighbors_In P HQ). split.
  - intros (N & p & q & EP & EQ & H). split; [congruence|].
    exists q, p. repeat split; auto. now rewrite distance_sym.
  - intros (N & q & p & EQ & EP & H). split; [congruence|].
    exists p, q. repeat split; auto. now rewrite distance_sym.
Qed.

Lemma proximity_symmetry_witness :
  shows lineViewOfA linePositions "A"
  /\ shows lineViewOfB linePositions "B"
  /\ (In "B" (neighbors lineViewOfA) <-> In "A" (neighbors lineViewOfB))
  /\ In "A" (neighbors lineViewOfB).
Proof.
  assert (HA : shows lineViewOfA linePositions "A").
  { split; [reflexivity|]. intros k. simpl.
    destruct (String.eqb_spec k "A") as [->|N]; reflexivity. }
  assert (HB : shows lineViewOfB linePositions "B").
  { split; [reflexivity|]. intros k. simpl.
    destruct (String.eqb_spec k "B") as [->|N]; [reflexivity|].
    destruct (String.eqb_spec k "A") as [->|N']; [reflexivity|].
    destruct (String.eqb k "B"); reflexivity. }
  destruct (@proximity_symmetry linePositions "A" "B" lineViewOfA lineViewOfB
              HA HB) as [S _].
  split; [exact HA|]. split; [exact HB|]. split; [exact S|].
  apply S. vm_compute. auto.
Defined.

(** The relation is not empty: on the line, A and B see each other and
    neither sees C. *)
Example neighbors_line :
  neighbors lineViewOfA = ["B"] /\ neighbors lineViewOfB = ["A"].
Proof. split; vm_compute; reflexivity. Qed.

(** The common snapshot is needed: two clients that do not have each
    other where the other has itself may disagree. *)
Example neighbors_of_shifted_views :
  neighbors shiftedViewOfA = ["Q"] /\ neighbors shiftedViewOfQ = [].
Proof. split; vm_compute; reflexivity. Qed.

(** ** Well-keyed registries *)

Lemma wellKeyed_set ps k p :
  Server.id p = k -> wellKeyed ps -> wellKeyed (JS.set ps k p).
Proof.
  intros E [N W]. split; [now apply NoDup_keys_set|].
  intros k' p' I. apply In_set in I. destruct I as [[-> ->]|I]; auto.
Qed.

Lemma wellKeyed_delete ps k : wellKeyed ps -> wellKeyed (JS.delete ps k).
Proof.
  intros [N W]. split; [now apply NoDup_keys_delete|].
  intros k' p' I. apply In_delete in I. auto.
Qed.

(** What the event loop makes of a move and of a signal request. *)
Lemma step_move st sid movementData :
  Server.step st (Server.PlayerMove sid movementData)
  = match JS.get (Server.players st) sid, movementData with
    | Some p, Some d =>
        ({| Server.players :=
              JS.set (Server.players st) sid
                {| Server.id := Server.id p; Server.x := Server.mx d;
                   Server.y := Server.my d; Server.anim := Server.manim d |};
            Server.sockets := Server.sockets st |},
         Server.broadcast_emit st sid
           (Server.PLAYER_MOVE (Server.spreadId sid d) d))
    | _, _ => (st, [])
    end.
Proof.
  simpl. unfold Server.onPlayerMove.
  destruct (JS.get (Server.players st) sid); [|reflexivity].
  now destruct movementData.
Qed.

Lemma step_signal st sid data :
  fst (Server.step st (Server.WebrtcSignal sid data)) = st.
Proof.
  simpl. unfold Server.onWebrtcSignal.
  destruct data as [d|]; [|reflexivity].
  now destruct (negb _ || negb _).
Qed.

(** Every handler keeps the registry well keyed. *)
Lemma step_wellKeyed st i :
  wellKeyed (Server.players st) ->
  wellKeyed (Server.players (fst (Server.step st i))).
Proof.
  intros W. destruct i as [sid|sid d|sid data|sid].
  - now apply wellKeyed_set.
  - rewrite step_move.
    destruct (JS.get (Server.players st) sid) as [p|] eqn:G; [|assumption].
    destruct d as [d|]; [|assumption].
    apply wellKeyed_set; [|assumption]. simpl.
    destruct W as [_ W]. apply W. now apply get_Some_In.
  - now rewrite step_signal.
  - now apply wellKeyed_delete.
Qed.

Lemma reachable_wellKeyed st : reachable st -> wellKeyed (Server.players st).
Proof.
  induction 1 as [|st i R IH].
  - split; [constructor | intros k p []].
  - now apply step_wellKeyed.
Qed.

(** On a well-keyed registry the sprite kept for an id is the one of its
    record. *)
Lemma lastSprite_get ps k :
  wellKeyed ps ->
  lastSprite (JS.values ps) k = option_map spriteOf (JS.get ps k).
Proof.
  induction ps as [|[k0 p0] ps IH]; intros [N W]; [reflexivity|].
  simpl in *. inversion N as [|? ? N1 N2]; subst.
  assert (E0 : Server.id p0 = k0) by (apply W; now left).
  rewrite IH by (split; [assumption | intros; apply W; now right]).
  rewrite E0.
  destruct (String.eqb_spec k k0) as [->|Nk].
  - apply get_None_keys in N1. rewrite N1. simpl.
    now rewrite String.eqb_refl.
  - destruct (JS.get ps k); simpl; [reflexivity|].
    destruct (String.eqb_spec k0 k); [congruence | reflexivity].
Qed.

Lemma get_positionsOf ps k :
  JS.get (positionsOf ps) k = option_map spriteOf (JS.get ps k).
Proof.
  induction ps as [|[k0 p0] ps IH]; [reflexivity|]. simpl.
  now destruct (String.eqb k k0).
Qed.

(** A scene that has just synchronised on a well-keyed registry shows the
    positions of the registry. *)
Lemma sync_shows ps P :
  wellKeyed ps ->
  shows (Scene.onPlayersSync (Scene.create (Some P)) ps) (positionsOf ps) P.
Proof.
  intros W. unfold Scene.onPlayersSync.
  destruct (@sync_fold P (JS.values ps) (Scene.create (Some P)) eq_refl)
    as (_ & B & C & D).
  cbv zeta in B, C, D. simpl in B, C, D.
  split.
  - rewrite B, get_positionsOf, (lastSprite_get _ W).
    now destruct (JS.get ps P).
  - intros k. destruct (String.eqb_spec k P) as [->|N]; [exact C|].
    rewrite (D k N), get_positionsOf, (lastSprite_get _ W).
    now destruct (JS.get ps k).
Qed.

(* ===================================================================== *)
(** * The [proximityUpdate] listener *)
(* ===================================================================== *)

Lemma count_app {E} (p : E -> bool) es1 es2 :
  count p (es1 ++ es2) = count p es1 + count p es2.
Proof. unfold count. now rewrite filter_app, length_app. Qed.

Lemma forEach_cons {A S E} (f : S -> A -> S * list E) a arr s :
  forEach (a :: arr) f s
  = (fst (forEach arr f (fst (f s a))),
     snd (f s a) ++ snd (forEach arr f (fst (f s a)))).
Proof.
  simpl. destruct (f s a) as [s1 e1]. simpl.
  now destruct (forEach arr f s1).
Qed.

Section ConnectPhase.
Variable me : string.

Lemma connectClose_present ps x p :
  JS.get ps x = Some p -> App.connectClose me ps x = (ps, []).
Proof. unfold App.connectClose. now intros ->. Qed.

Lemma connectClose_absent ps x :
  JS.get ps x = None ->
  App.connectClose me ps x
  = if JS.str_lt me x
    then (JS.set ps x {| WebRTC.initiator := true |}, [WebRTC.NewPeer x true])
    else (ps, []).
Proof. unfold App.connectClose, WebRTC.createPeer. now intros ->. Qed.

(** A peer that exists is left alone, and nothing is created for it. *)
Lemma connect_keeps k p (q : WebRTC.effect -> bool) :
  (forall t i, t <> k -> q (WebRTC.NewPeer t i) = false) ->
  forall arr ps,
  JS.get ps k = Some p ->
  JS.get (fst (forEach arr (App.connectClose me) ps)) k = Some p
  /\ count q (snd (forEach arr (App.connectClose me) ps)) = 0.
Proof.
  intros Hq. induction arr as [|x arr IH]; intros ps H; [now split|].
  rewrite forEach_cons. simpl fst. simpl snd. rewrite count_app.
  assert (H1 : JS.get (fst (App.connectClose me ps x)) k = Some p
               /\ count q (snd (App.connectClose me ps x)) = 0).
  { destruct (JS.get ps x) eqn:G.
    - rewrite (connectClose_present _ _ G). now split.
    - rewrite (connectClose_absent _ _ G).
      destruct (JS.str_lt me x); [|now split]. simpl.
      assert (x <> k) by congruence.
      rewrite get_set_other by assumption. split; [assumption|].
      unfold count. simpl. now rewrite Hq. }
  destruct H1 as [H1 H2]. destruct (IH _ H1) as [H3 H4].
  split; [assumption | lia].
Qed.

Lemma isNewPeer_other k t i : t <> k -> WebRTC.isNewPeer k (WebRTC.NewPeer t i) = false.
Proof. intros N. simpl. now destruct (String.eqb_spec t k). Qed.

Lemma isInitiation_other k t i :
  t <> k -> WebRTC.isInitiation k (WebRTC.NewPeer t i) = false.
Proof. intros N. simpl. now destruct (String.eqb_spec t k). Qed.

(** Ids outside the array are not touched. *)
Lemma connect_outside k : forall arr ps,
  ~ In k arr ->
  JS.get (fst (forEach arr (App.connectClose me) ps)) k = JS.get ps k.
Proof.
  induction arr as [|x arr IH]; intros ps N; [reflexivity|].
  rewrite forEach_cons. simpl fst.
  rewrite IH by (intros I; apply N; now right).
  assert (x <> k) by (intros ->; apply N; now left).
  unfold App.connectClose, WebRTC.createPeer.
  destruct (JS.get ps x); [reflexivity|].
  destruct (JS.str_lt me x); [|reflexivity].
  simpl. now apply get_set_other.
Qed.

(** This phase destroys nothing. *)
Lemma connect_no_destroy k : forall arr ps,
  count (WebRTC.isDestroy k)
    (snd (forEach arr (App.connectClose me) ps)) = 0.
Proof.
  induction arr as [|x arr IH]; intros ps; [reflexivity|].
  rewrite forEach_cons. simpl snd. rewrite count_app, IH.
  unfold App.connectClose, WebRTC.createPeer.
  destruct (JS.get ps x); [reflexivity|].
  destruct (JS.str_lt me x); reflexivity.
Qed.

(** For a peer that does not exist yet, the number of initiations is
    decided by the order of the two ids. *)
Lemma connect_initiations k : forall arr ps,
  JS.get ps k = None ->
  count (WebRTC.isInitiation k)
    (snd (forEach arr (App.connectClose me) ps))
  = if JS.includes arr k && JS.str_lt me k then 1 else 0.
Proof.
  induction arr as [|x arr IH]; intros ps H; [reflexivity|].
  rewrite forEach_cons. simpl snd. rewrite count_app.
  unfold JS.includes. simpl existsb. fold (JS.includes arr k).
  destruct (String.eqb_spec k x) as [<-|N]; simpl orb.
  - rewrite (connectClose_absent _ _ H).
    destruct (JS.str_lt me k) eqn:L; simpl fst; simpl snd.
    + destruct (@connect_keeps k _ (WebRTC.isInitiation k)
                  (fun t i => @isInitiation_other k t i) arr _
                  (get_set_same ps k {| WebRTC.initiator := true |}))
        as [_ Z0].
      rewrite Z0. unfold count. simpl. now rewrite String.eqb_refl.
    + rewrite (IH _ H). now rewrite !andb_false_r.
  - assert (Q : JS.get (fst (App.connectClose me ps x)) k = None
                /\ count (WebRTC.isInitiation k)
                     (snd (App.connectClose me ps x)) = 0).
    { destruct (JS.get ps x) eqn:Gx.
      - rewrite (connectClose_present _ _ Gx). now split.
      - rewrite (connectClose_absent _ _ Gx).
        destruct (JS.str_lt me x); [|now split]. simpl.
        rewrite get_set_other by congruence. split; [assumption|].
        unfold count. simpl.
        destruct (String.eqb_spec x k); [congruence | reflexivity]. }
    destruct Q as [Q1 Q2]. rewrite Q2, (IH _ Q1). reflexivity.
Qed.
End ConnectPhase.

Section DisconnectPhase.
Variable closePlayers : list string.

(** This phase creates nothing. *)
Lemma disconnect_no_new (p : WebRTC.effect -> bool) :
  (forall t, p (WebRTC.PeerDestroy t) = false) ->
  forall arr ps,
    count p (snd (forEach arr (App.disconnectFar closePlayers) ps)) = 0.
Proof.
  intros Hp. induction arr as [|x arr IH]; intros ps; [reflexivity|].
  rewrite forEach_cons. simpl snd. rewrite count_app, IH.
  unfold App.disconnectFar, WebRTC.removePeer.
  destruct (negb (JS.includes closePlayers x)); [|reflexivity].
  destruct (JS.get ps x); [|reflexivity].
  unfold count. simpl. now rewrite Hp.
Qed.

(** A peer that is still close is kept and not destroyed. *)
Lemma disconnect_keeps k : In k closePlayers -> forall arr ps,
  JS.get (fst (forEach arr (App.disconnectFar closePlayers) ps)) k
  = JS.get ps k
  /\ count (WebRTC.isDestroy k)
       (snd (forEach arr (App.disconnectFar closePlayers) ps)) = 0.
Proof.
  intros I. induction arr as [|x arr IH]; intros ps; [now split|].
  rewrite forEach_cons. simpl fst. simpl snd. rewrite count_app.
  destruct (IH (fst (App.disconnectFar closePlayers ps x))) as [H1 H2].
  rewrite H1, H2. clear IH H1 H2.
  unfold App.disconnectFar, WebRTC.removePeer.
  destruct (JS.includes closePlayers x) eqn:C; simpl; [now split|].
  apply includes_false in C.
  assert (x <> k) by congruence.
  destruct (JS.get ps x); simpl; [|now split].
  rewrite get_delete_other by assumption. split; [reflexivity|].
  unfold count. simpl.
  destruct (String.eqb_spec x k); [congruence | reflexivity].
Qed.

(** A peer that is no longer close is destroyed once, when the walk
    over the keys meets it. *)
Lemma disconnect_far k : ~ In k closePlayers -> forall arr ps,
  JS.get (fst (forEach arr (App.disconnectFar closePlayers) ps)) k
  = (if JS.includes arr k then None else JS.get ps k)
  /\ count (WebRTC.isDestroy k)
       (snd (forEach arr (App.disconnectFar closePlayers) ps))
     = match JS.get ps k with
       | Some _ => if JS.includes arr k then 1 else 0
       | None => 0
       end.
Proof.
  intros N. apply includes_false in N.
  induction arr as [|x arr IH]; intros ps.
  - simpl. split; [reflexivity | now destruct (JS.get ps k)].
  - rewrite forEach_cons. simpl fst. simpl snd. rewrite count_app.
    destruct (IH (fst (App.disconnectFar closePlayers ps x))) as [H1 H2].
    rewrite H1, H2. clear IH H1 H2.
    unfold JS.includes at 2 4. simpl existsb. fold (JS.includes arr k).
    destruct (String.eqb_spec k x) as [<-|Nx]; simpl orb.
    + unfold App.disconnectFar, WebRTC.removePeer. rewrite N. simpl negb.
      cbv iota.
      destruct (JS.get ps k) eqn:G; simpl fst; simpl snd.
      * rewrite get_delete_same. split.
        -- now destruct (JS.includes arr k).
        -- unfold count. simpl. now rewrite String.eqb_refl.
      * rewrite G. split; [now destruct (JS.includes arr k) | reflexivity].
    + assert (Q : JS.get (fst (App.disconnectFar closePlayers ps x)) k
                  = JS.get ps k
                  /\ count (WebRTC.isDestroy k)
                       (snd (App.disconnectFar closePlayers ps x)) = 0).
      { unfold App.disconnectFar, WebRTC.removePeer.
        destruct (negb (JS.includes closePlayers x)); [|now split].
        destruct (JS.get ps x); simpl; [|now split].
        rewrite get_delete_other by congruence. split; [reflexivity|].
        unfold count. simpl.
        destruct (String.eqb_spec x k); [congruence | reflexivity]. }
      destruct Q as [Q1 Q2]. rewrite Q1, Q2. now split.
Qed.
End DisconnectPhase.

Lemma proximityUpdate_eq me closePlayers ps :
  App.proximityUpdate me closePlayers ps
  = (fst (forEach (JS.keys (fst (forEach closePlayers (App.connectClose me) ps)))
            (App.disconnectFar closePlayers)
            (fst (forEach closePlayers (App.connectClose me) ps))),
     snd (forEach closePlayers (App.connectClose me) ps)
     ++ snd (forEach (JS.keys (fst (forEach closePlayers (App.connectClose me) ps)))
               (App.disconnectFar closePlayers)
               (fst (forEach closePlayers (App.connectClose me) ps)))).
Proof.
  unfold App.proximityUpdate.
  destruct (forEach closePlayers (App.connectClose me) ps) as [ps1 e1].
  simpl. now destruct (forEach (JS.keys ps1) _ ps1).
Qed.

Lemma get_Some_includes {V} (o : JS.obj V) k v :
  JS.get o k = Some v -> JS.includes (JS.keys o) k = true.
Proof.
  intros H. apply includes_In.
  destruct (in_dec string_dec k (JS.keys o)) as [I|I]; [exact I|].
  apply get_None_keys in I. congruence.
Qed.

(** C2. Idempotent open: when a peer already exists for an id and the
    recomputation reports that id as close again, the listener keeps the
    very same peer, creates no second one and destroys nothing for it. *)
Theorem idempotent_open (me : string) (closePlayers : list string)
  (ps : WebRTC.peers) (k : string) (p : WebRTC.peer)
  (Hactive : JS.get ps k = Some p) (Hclose : In k closePlayers) :
  JS.get (fst (App.proximityUpdate me closePlayers ps)) k = Some p
  /\ count (WebRTC.isNewPeer k)
       (snd (App.proximityUpdate me closePlayers ps)) = 0
  /\ count (WebRTC.isDestroy k)
       (snd (App.proximityUpdate me closePlayers ps)) = 0.
Proof.
  rewrite proximityUpdate_eq. simpl fst. simpl snd.
  destruct (@connect_keeps me k p (WebRTC.isNewPeer k)
              (fun t i => @isNewPeer_other k t i) closePlayers ps Hactive)
    as [K1 K2].
  set (ps1 := fst (forEach closePlayers (App.connectClose me) ps)) in *.
  destruct (@disconnect_keeps closePlayers k Hclose (JS.keys ps1) ps1)
    as [D1 D2].
  rewrite D1, !count_app, K2, D2, connect_no_destroy.
  rewrite disconnect_no_new by reflexivity.
  auto.
Qed.

Lemma idempotent_open_witness :
  JS.get peersOfA "B" = Some {| WebRTC.initiator := true |}
  /\ In "B" ["B"]
  /\ JS.get (fst (App.proximityUpdate "A" ["B"] peersOfA)) "B"
     = Some {| WebRTC.initiator := true |}
  /\ count (WebRTC.isNewPeer "B")
       (snd (App.proximityUpdate "A" ["B"] peersOfA)) = 0
  /\ count (WebRTC.isDestroy "B")
       (snd (App.proximityUpdate "A" ["B"] peersOfA)) = 0.
Proof.
  split; [reflexivity|]. split; [simpl; auto|].
  apply (@idempotent_open "A" ["B"] peersOfA "B" {| WebRTC.initiator := true |}).
  - reflexivity.
  - simpl; auto.
Defined.

(** On that input the whole listener does nothing at all. *)
Example proximityUpdate_again :
  App.proximityUpdate "A" ["B"] peersOfA = (peersOfA, []).
Proof. reflexivity. Qed.

(** C3. Initiator tie-break: when two distinct ids become newly close
    (neither side has a peer for the other yet), exactly one side creates
    an initiating peer, and it is the side whose id is smaller in the
    string order; the designation depends on the two ids only and is the
    same whichever side computes it. *)
Theorem initiator_tie_break (a b : string) (closeA closeB : list string)
  (psA psB : WebRTC.peers)
  (Hdistinct : a <> b)
  (HnewA : JS.get psA b = None) (HnewB : JS.get psB a = None)
  (HcloseA : In b closeA) (HcloseB : In a closeB) :
  let initA := count (WebRTC.isInitiation b)
                 (snd (App.proximityUpdate a closeA psA)) in
  let initB := count (WebRTC.isInitiation a)
                 (snd (App.proximityUpdate b closeB psB)) in
  initA + initB = 1
  /\ (initA = 1 <-> JS.str_lt a b = true)
  /\ (initB = 1 <-> JS.str_lt b a = true)
  /\ (initA = 1 <-> lexLess a b)
  /\ (initB = 1 <-> lexLess b a)
  /\ (initA = 1 <-> initiatorOf a b = a)
  /\ (initB = 1 <-> initiatorOf a b = b)
  /\ initiatorOf a b = initiatorOf b a.
Proof.
  intros initA initB.
  assert (EA : initA = if JS.str_lt a b then 1 else 0).
  { unfold initA. rewrite proximityUpdate_eq. simpl snd.
    rewrite count_app, connect_initiations by assumption.
    rewrite disconnect_no_new by reflexivity.
    apply includes_In in HcloseA. rewrite HcloseA. simpl. lia. }
  assert (EB : initB = if JS.str_lt b a then 1 else 0).
  { unfold initB. rewrite proximityUpdate_eq. simpl snd.
    rewrite count_app, connect_initiations by assumption.
    rewrite disconnect_no_new by reflexivity.
    apply includes_In in HcloseB. rewrite HcloseB. simpl. lia. }
  rewrite EA, EB. rewrite <- !str_lt_lex. unfold initiatorOf.
  rewrite (str_lt_total Hdistinct).
  destruct (JS.str_lt b a); simpl; repeat split;
    intros; try congruence; try lia.
Qed.

Lemma initiator_tie_break_witness :
  "A" <> "B"
  /\ count (WebRTC.isInitiation "B")
       (snd (App.proximityUpdate "A" ["B"] [])) = 1
  /\ count (WebRTC.isInitiation "A")
       (snd (App.proximityUpdate "B" ["A"] [])) = 0
  /\ initiatorOf "A" "B" = "A".
Proof.
  assert (N : "A" <> "B") by discriminate.
  destruct (@initiator_tie_break "A" "B" ["B"] ["A"] [] [] N
              eq_refl eq_refl (or_introl eq_refl) (or_introl eq_refl))
    as (S1 & A1 & B1 & _ & _ & A2 & B2 & E).
  split; [exact N|].
  assert (IA : count (WebRTC.isInitiation "B")
                 (snd (App.proximityUpdate "A" ["B"] [])) = 1)
    by (apply A1; reflexivity).
  split; [exact IA|]. split; [lia|]. apply A2. exact IA.
Defined.

(* ===================================================================== *)
(** * Disconnection, from the server to the remaining client *)
(* ===================================================================== *)

Lemma removePlayer_gone s r :
  JS.get (Scene.players (Scene.removePlayer s r)) r = None
  /\ Scene.player (Scene.removePlayer s r) = Scene.player s.
Proof.
  unfold Scene.removePlayer.
  destruct (JS.get (Scene.players s) r) eqn:G; simpl.
  - split; [apply get_delete_same | reflexivity].
  - now split.
Qed.

(** Whoever has no sprite in the scene is not reported close. *)
Lemma checkProximity_known s closePlayers k :
  Scene.checkProximity s = Some closePlayers ->
  JS.get (Scene.players s) k = None -> ~ In k closePlayers.
Proof.
  unfold Scene.checkProximity.
  destruct (Scene.player s) as [me|]; [|discriminate].
  intros E G I. injection E as <-.
  apply filter_In in I. destruct I as [I _].
  now apply get_None_keys in G.
Qed.

(** A peer whose id is not reported close is torn down once, and a
    second run finds nothing left to tear down. *)
Lemma far_peer_closed me closePlayers ps r p :
  ~ In r closePlayers -> JS.get ps r = Some p ->
  JS.get (fst (App.proximityUpdate me closePlayers ps)) r = None
  /\ count (WebRTC.isDestroy r)
       (snd (App.proximityUpdate me closePlayers ps)) = 1.
Proof.
  intros N G. rewrite proximityUpdate_eq. simpl fst. simpl snd.
  destruct (@connect_keeps me r p (WebRTC.isDestroy r)
              (fun t i _ => eq_refl) closePlayers ps G) as [K1 K2].
  set (ps1 := fst (forEach closePlayers (App.connectClose me) ps)) in *.
  destruct (@disconnect_far closePlayers r N (JS.keys ps1) ps1) as [D1 D2].
  rewrite D1, count_app, K2, D2, K1, (get_Some_includes _ _ K1).
  now split.
Qed.

Lemma absent_peer_quiet me closePlayers ps r :
  ~ In r closePlayers -> JS.get ps r = None ->
  JS.get (fst (App.proximityUpdate me closePlayers ps)) r = None
  /\ count (WebRTC.isDestroy r)
       (snd (App.proximityUpdate me closePlayers ps)) = 0.
Proof.
  intros N G. rewrite proximityUpdate_eq. simpl fst. simpl snd.
  pose proof (@connect_outside me r closePlayers ps N) as K1.
  rewrite G in K1.
  set (ps1 := fst (forEach closePlayers (App.connectClose me) ps)) in *.
  destruct (@disconnect_far closePlayers r N (JS.keys ps1) ps1) as [D1 D2].
  rewrite D1, count_app, connect_no_destroy, D2, K1.
  split; [now destruct (JS.includes (JS.keys ps1) r) | reflexivity].
Qed.

(** C4. Clean close on disconnect: when the socket [r] disconnects, the
    server drops its record and tells every remaining socket [q]; once
    [q] has handled that message and its next proximity recomputation has
    run, [q] holds no peer for [r], the peer it held was destroyed exactly
    once, and the recomputation after that destroys nothing for [r]. *)
Theorem clean_close_on_disconnect (st : Server.state) (r q : string)
  (s : Scene.scene) (ps : WebRTC.peers) (me : Scene.sprite) (p : WebRTC.peer)
  (Hq : In q (Server.sockets st)) (Hqr : q <> r)
  (Hplayer : Scene.player s = Some me)
  (Hactive : JS.get ps r = Some p) :
  let st' := fst (Server.step st (Server.Disconnect r)) in
  let out := snd (Server.step st (Server.Disconnect r)) in
  let s' := Scene.on s (Server.PLAYER_LEAVE r) in
  let ps' := fst (App.tick q s' ps) in
  JS.get (Server.players st') r = None
  /\ In (q, Server.PLAYER_LEAVE r) out
  /\ JS.get ps' r = None
  /\ count (WebRTC.isDestroy r) (snd (App.tick q s' ps)) = 1
  /\ JS.get (fst (App.tick q s' ps')) r = None
  /\ count (WebRTC.isDestroy r) (snd (App.tick q s' ps')) = 0.
Proof.
  cbv zeta. simpl Scene.on.
  destruct (removePlayer_gone s r) as [G P]. rewrite Hplayer in P.
  split; [apply get_delete_same|].
  split.
  { unfold Server.step, Server.onDisconnect, Server.io_emit. simpl.
    apply in_map with (f := fun s0 => (s0, Server.PLAYER_LEAVE r)).
    apply filter_In. split; [assumption|].
    now destruct (String.eqb_spec q r). }
  unfold App.tick.
  destruct (Scene.checkProximity (Scene.removePlayer s r))
    as [closePlayers|] eqn:C.
  2:{ unfold Scene.checkProximity in C. now rewrite P in C. }
  pose proof (@checkProximity_known _ closePlayers r C G) as N.
  destruct (@far_peer_closed q closePlayers ps r p N Hactive) as [F1 F2].
  destruct (@absent_peer_quiet q closePlayers _ r N F1) as [A1 A2].
  auto.
Qed.

Lemma clean_close_on_disconnect_witness :
  In "A" (Server.sockets lineServer) /\ "A" <> "B"
  /\ Scene.player sceneOfA = Some {| Scene.x := 0%float; Scene.y := 0%float |}
  /\ JS.get peersOfA "B" = Some {| WebRTC.initiator := true |}
  /\ App.tick "A" (Scene.on sceneOfA (Server.PLAYER_LEAVE "B")) peersOfA
     = ([], [WebRTC.PeerDestroy "B"])
  /\ count (WebRTC.isDestroy "B")
       (snd (App.tick "A" (Scene.on sceneOfA (Server.PLAYER_LEAVE "B"))
               peersOfA)) = 1.
Proof.
  assert (N : "A" <> "B") by discriminate.
  assert (I : In "A" (Server.sockets lineServer)) by (simpl; auto).
  destruct (@clean_close_on_disconnect lineServer "B" "A" sceneOfA peersOfA
              {| Scene.x := 0%float; Scene.y := 0%float |}
              {| WebRTC.initiator := true |} I N eq_refl eq_refl)
    as (_ & _ & _ & D & _).
  split; [exact I|]. split; [exact N|]. split; [reflexivity|].
  split; [reflexivity|]. split; [reflexivity | exact D].
Defined.

(* ===================================================================== *)
(** * The server handlers *)
(* ===================================================================== *)

(** C5. Stale update rejection: a move from a socket id that has no
    record in the registry changes nothing (no record is created) and
    emits nothing to anyone. *)
Theorem stale_move_is_noop (sid : string)
  (movementData : option Server.movement) (st : Server.state)
  (Habsent : JS.get (Server.players st) sid = None) :
  Server.onPlayerMove sid movementData st = Server.Returns st [].
Proof. unfold Server.onPlayerMove. now rewrite Habsent. Qed.

Lemma stale_move_is_noop_witness :
  JS.get (Server.players lineServer) "Z" = None
  /\ Server.onPlayerMove "Z"
       (Some {| Server.mx := 1%float; Server.my := 2%float;
                Server.manim := "walk"; Server.mid := None |})
       lineServer = Server.Returns lineServer [].
Proof.
  split; [reflexivity|]. apply stale_move_is_noop. reflexivity.
Defined.

(** In particular a move that arrives after the disconnection of its
    socket finds the registry as the disconnection left it. *)
Lemma move_after_disconnect sid movementData st :
  let st' := fst (Server.step st (Server.Disconnect sid)) in
  Server.step st' (Server.PlayerMove sid movementData) = (st', [])
  /\ Server.throws st' (Server.PlayerMove sid movementData) = false.
Proof.
  cbv zeta. simpl. unfold Server.onPlayerMove. simpl.
  now rewrite get_delete_same.
Qed.

(** A move of a registered socket is stored and broadcast. *)
Example move_of_B :
  let d := {| Server.mx := 20%float; Server.my := 5%float;
              Server.manim := "walk"; Server.mid := None |} in
  snd (Server.step lineServer (Server.PlayerMove "B" (Some d)))
  = [("A", Server.PLAYER_MOVE "B" d); ("C", Server.PLAYER_MOVE "B" d)].
Proof. reflexivity. Qed.

(** The broadcast names the id the payload brings, whoever sent it. *)
Example move_under_another_id :
  snd (Server.step lineServer (Server.PlayerMove "B" (Some walkAsC)))
  = [("A", Server.PLAYER_MOVE "C" walkAsC);
     ("C", Server.PLAYER_MOVE "C" walkAsC)].
Proof. reflexivity. Qed.

(** A request without payload: the listener of a registered socket
    throws, the one of a socket without record returns. *)
Example move_without_payload :
  Server.onPlayerMove "B" None lineServer = Server.Throws
  /\ Server.onPlayerMove "Z" None lineServer = Server.Returns lineServer [].
Proof. split; reflexivity. Qed.

(** C7, as worded, fails: connecting an id that is already registered
    replaces its record. *)
Lemma register_overwrites : ~ register_keeps_existing_record.
Proof.
  intros H.
  specialize (H "B" lineServer _ eq_refl).
  apply (f_equal (fun o => match o with
                           | Some p => PrimFloat.eqb (Server.x p) 10
                           | None => false
                           end)) in H.
  vm_compute in H. discriminate.
Qed.

(** The registry after a connection. *)
Lemma onConnect_players sid st :
  JS.get (Server.players (fst (Server.onConnect sid st))) sid
  = Some (Server.spawn sid)
  /\ forall k, k <> sid ->
       JS.get (Server.players (fst (Server.onConnect sid st))) k
       = JS.get (Server.players st) k.
Proof.
  simpl. split.
  - apply get_set_same.
  - intros k N. apply get_set_other. congruence.
Qed.

(** C7, amended. The connection handler never fails: it stores a fresh
    record at the spawn position (400, 300, idle) under the socket id,
    whether or not the id was registered, and leaves every other record
    as it was. *)
Theorem register_spawns (sid : string) (st : Server.state) :
  let st' := fst (Server.onConnect sid st) in
  JS.get (Server.players st') sid
  = Some {| Server.id := sid; Server.x := 400%float; Server.y := 300%float;
            Server.anim := "idle" |}
  /\ forall k, k <> sid ->
       JS.get (Server.players st') k = JS.get (Server.players st) k.
Proof. cbv zeta. apply onConnect_players. Qed.

(** C6, as worded, fails: a request to a connected target is not relayed
    when its payload is falsy. *)
Lemma relay_drops_falsy_payload : ~ relay_delivers_every_payload.
Proof.
  intros H.
  specialize (H "A" zeroSignal lineServer "B" eq_refl eq_refl).
  assert (I : In "B" (Server.sockets lineServer)) by (simpl; auto).
  specialize (H I). vm_compute in H. discriminate.
Qed.

(** ** [io.to(room).emit] *)

Lemma roomSockets_In st rs : forall seen t,
  In t (Server.roomSockets st rs seen) ->
  In t (Server.sockets st) /\ In (JS.VStr t) rs /\ ~ In t seen.
Proof.
  induction rs as [|r rs IH]; intros seen t H; [destruct H|].
  assert (Rest : forall seen',
            (forall u, In u seen -> In u seen') ->
            In t (Server.roomSockets st rs seen') ->
            In t (Server.sockets st) /\ In (JS.VStr t) (r :: rs)
            /\ ~ In t seen).
  { intros seen' Sub H'. destruct (IH _ _ H') as (A & B & C).
    split; [exact A|]. split; [now right|]. intros I. apply C. now apply Sub. }
  destruct r as [| |b|n|r|items|fs]; simpl in H;
    try (apply (Rest seen); [auto | exact H]).
  destruct (JS.includes (Server.sockets st) r) eqn:I1;
    [|apply (Rest seen); [auto | exact H]].
  destruct (JS.includes seen r) eqn:I2; simpl in H;
    [apply (Rest seen); [auto | exact H]|].
  destruct H as [<-|H].
  - split; [now apply includes_In|]. split; [now left|].
    now apply includes_false.
  - apply (Rest (r :: seen)); [intros u Hu; now right | exact H].
Qed.

Lemma roomSockets_NoDup st rs : forall seen,
  NoDup (Server.roomSockets st rs seen).
Proof.
  induction rs as [|r rs IH]; intros seen; [constructor|].
  destruct r as [| |b|n|r|items|fs]; simpl; try apply IH.
  destruct (JS.includes (Server.sockets st) r && negb (JS.includes seen r));
    [|apply IH].
  constructor; [|apply IH].
  intros H. apply roomSockets_In in H. destruct H as (_ & _ & H).
  apply H. now left.
Qed.

(** A text names one room: the socket of that id, when it is connected. *)
Lemma io_to_emit_text st t m :
  Server.io_to_emit st (JS.VStr t) m
  = if JS.includes (Server.sockets st) t then [(t, m)] else [].
Proof.
  unfold Server.io_to_emit. simpl.
  now destruct (JS.includes (Server.sockets st) t).
Qed.

(** Whatever the room, the message goes unchanged to connected sockets
    that the room names; only an array without any room names them all. *)
Lemma io_to_emit_In st room m e :
  In e (Server.io_to_emit st room m) ->
  snd e = m
  /\ In (fst e) (Server.sockets st)
  /\ (room = JS.VStr (fst e)
      \/ exists items, room = JS.VArr items
           /\ (items = [] \/ In (JS.VStr (fst e)) items)).
Proof.
  unfold Server.io_to_emit. intros H.
  assert (Named : forall rs,
            In e (map (fun s => (s, m)) (Server.roomSockets st rs [])) ->
            snd e = m /\ In (fst e) (Server.sockets st)
            /\ In (JS.VStr (fst e)) rs).
  { intros rs H'. apply in_map_iff in H'. destruct H' as (t & <- & H').
    apply roomSockets_In in H'. destruct H' as (A & B & _). now repeat split. }
  destruct room as [| |b|n|r|items|fs]; try (destruct H; fail).
  - apply (Named [JS.VStr r]) in H. destruct H as (A & B & [H|[]]).
    injection H as H. repeat split; auto. left. now rewrite H.
  - destruct items as [|i items].
    + unfold Server.io_emit in H. apply in_map_iff in H.
      destruct H as (t & <- & H). repeat split; auto.
      right. exists []. auto.
    + apply Named in H. destruct H as (A & B & C). repeat split; auto.
      right. exists (i :: items). auto.
Qed.

Lemma io_to_emit_NoDup st room m :
  NoDup (Server.sockets st) ->
  NoDup (map fst (Server.io_to_emit st room m)).
Proof.
  intros N. unfold Server.io_to_emit.
  assert (Fst : forall l : list string, map fst (map (fun s => (s, m)) l) = l).
  { intros l. rewrite map_map. simpl. apply map_id. }
  destruct (Server.rooms room) as [|r rs].
  - unfold Server.io_emit. now rewrite Fst.
  - rewrite Fst. apply roomSockets_NoDup.
Qed.

(** C6, amended. A request that carries an object never changes the
    state and is relayed as follows. With a non-empty text as target id
    and a truthy payload, the payload goes unmodified, with the sender's
    id, to the connection of that id and to it only, once, when it is
    connected, and to nobody when it is not. With a falsy target id or
    payload the request is dropped. Whatever the target id is, every
    delivery carries the unmodified payload and the sender's id to a
    connected socket that the target id names (the text itself, or an
    entry of an array; an array without entries names every socket), and
    no socket gets it twice. *)
Theorem relay_contract (sid : string) (data : Server.signalData)
  (st : Server.state) :
  exists out,
    Server.onWebrtcSignal sid (Some data) st = Server.Returns st out
    /\ (forall t, Server.targetId data = JS.VStr t -> t <> "" ->
          JS.truthy (Server.signal data) = true ->
          (In t (Server.sockets st) ->
           out = [(t, Server.WEBRTC_SIGNAL sid (Server.signal data))])
          /\ (~ In t (Server.sockets st) -> out = []))
    /\ (JS.truthy (Server.targetId data) = false
        \/ JS.truthy (Server.signal data) = false -> out = [])
    /\ (forall e, In e out ->
          snd e = Server.WEBRTC_SIGNAL sid (Server.signal data)
          /\ In (fst e) (Server.sockets st)
          /\ (Server.targetId data = JS.VStr (fst e)
              \/ exists items, Server.targetId data = JS.VArr items
                   /\ (items = [] \/ In (JS.VStr (fst e)) items)))
    /\ (NoDup (Server.sockets st) -> NoDup (map fst out)).
Proof.
  unfold Server.onWebrtcSignal.
  destruct (negb (JS.truthy (Server.targetId data))
            || negb (JS.truthy (Server.signal data))) eqn:Guard.
  - exists []. split; [reflexivity|].
    split.
    { intros t E Ne S. exfalso. rewrite E, S in Guard. simpl in Guard.
      destruct (String.eqb_spec t ""); [contradiction | discriminate]. }
    split; [reflexivity|].
    split; [intros e []|]. intros _. constructor.
  - apply orb_false_elim in Guard. destruct Guard as [T S].
    apply negb_false_iff in T, S.
    exists (Server.io_to_emit st (Server.targetId data)
              (Server.WEBRTC_SIGNAL sid (Server.signal data))).
    split; [reflexivity|].
    split.
    { intros t E _ _. rewrite E, io_to_emit_text. split.
      - intros I. destruct (JS.includes (Server.sockets st) t) eqn:I'; auto.
        apply includes_false in I'. contradiction.
      - intros I. destruct (JS.includes (Server.sockets st) t) eqn:I'; auto.
        apply includes_In in I'. contradiction. }
    split; [intros [?|?]; congruence|].
    split; [intros e; apply io_to_emit_In | apply io_to_emit_NoDup].
Qed.

Lemma relay_contract_witness :
  In "B" (Server.sockets lineServer)
  /\ Server.onWebrtcSignal "A" (Some offerSignal) lineServer
     = Server.Returns lineServer
         [("B", Server.WEBRTC_SIGNAL "A" (JS.VObj [("type", JS.VStr "offer")]))].
Proof.
  assert (I : In "B" (Server.sockets lineServer)) by (simpl; auto).
  split; [exact I|].
  destruct (relay_contract "A" offerSignal lineServer) as (out & E & D & _).
  rewrite E. f_equal.
  apply (D "B" eq_refl); [discriminate | reflexivity | exact I].
Defined.

(** A request without payload makes the listener throw, and an array of
    target ids is a list of rooms. *)
Example signal_without_payload :
  Server.onWebrtcSignal "A" None lineServer = Server.Throws.
Proof. reflexivity. Qed.

Example signal_to_several :
  let offer := JS.VObj [("type", JS.VStr "offer")] in
  Server.onWebrtcSignal "A"
    (Some {| Server.targetId := JS.VArr [JS.VStr "B"; JS.VStr "Z"; JS.VStr "C";
                                         JS.VStr "B"];
             Server.signal := offer |}) lineServer
  = Server.Returns lineServer
      [("B", Server.WEBRTC_SIGNAL "A" offer);
       ("C", Server.WEBRTC_SIGNAL "A" offer)].
Proof. reflexivity. Qed.

(* ===================================================================== *)
(** * The snapshot sent on connection *)
(* ===================================================================== *)

(** The scene creates its local player exactly when some record of the
    snapshot carries its own id. *)
Lemma sync_finds_me me snapshot :
  Scene.player (Scene.onPlayersSync (Scene.create (Some me)) snapshot) <> None
  <-> exists p, In p (JS.values snapshot) /\ Server.id p = me.
Proof.
  unfold Scene.onPlayersSync.
  destruct (@sync_fold me (JS.values snapshot) (Scene.create (Some me)) eq_refl)
    as (_ & B & _).
  cbv zeta in B. rewrite B. simpl. clear B.
  induction (JS.values snapshot) as [|p rs IH]; simpl.
  - split; [congruence | intros (p & [] & _)].
  - destruct (lastSprite rs me) eqn:L.
    + split; [|congruence]. intros _.
      destruct IH as [IH _]. destruct (IH ltac:(congruence)) as (p' & I & E).
      exists p'. auto.
    + destruct (String.eqb_spec (Server.id p) me) as [E|N].
      * split; [|congruence]. intros _. exists p. auto.
      * split; [congruence|]. intros (p' & [<-|I] & E); [congruence|].
        apply IH. exists p'. auto.
Qed.

(** Without a socket id the scene never creates its local player. *)
Lemma sync_without_id snapshot :
  Scene.player (Scene.onPlayersSync (Scene.create None) snapshot) = None.
Proof.
  unfold Scene.onPlayersSync.
  assert (G : forall rs s, Scene.myPlayerId s = None -> Scene.player s = None ->
            Scene.player
              (fold_left
                 (fun s p => if Scene.isMe s p then Scene.createMyPlayer s p
                             else Scene.addOtherPlayer s p) rs s) = None).
  { induction rs as [|p rs IH]; intros s M P; [exact P|]. simpl.
    unfold Scene.isMe at 2. rewrite M. apply IH; assumption. }
  now apply G.
Qed.

(** C10. The snapshot sent to a socket that has just connected contains
    the socket's own fresh record (x = 400, y = 300, anim idle) next to
    the records of all other registered players, and the client creates
    its local player only from a record of the snapshot that carries its
    own id: it does so on the server's snapshot, and on a snapshot
    without its id it has no local player. *)
Theorem snapshot_includes_joiner (sid : string) (st : Server.state) :
  let snapshot := Server.players (fst (Server.onConnect sid st)) in
  In (sid, Server.PLAYERS_SYNC snapshot) (snd (Server.onConnect sid st))
  /\ JS.get snapshot sid
     = Some {| Server.id := sid; Server.x := 400%float; Server.y := 300%float;
               Server.anim := "idle" |}
  /\ (forall k, k <> sid -> JS.get snapshot k = JS.get (Server.players st) k)
  /\ Scene.player
       (Scene.on (Scene.create (Some sid)) (Server.PLAYERS_SYNC snapshot))
     <> None
  /\ (forall other : JS.obj Server.player,
        Scene.player
          (Scene.on (Scene.create (Some sid)) (Server.PLAYERS_SYNC other))
        <> None
        <-> exists p, In p (JS.values other) /\ Server.id p = sid).
Proof.
  cbv zeta. destruct (onConnect_players sid st) as [G O].
  split; [simpl; auto|]. split; [exact G|]. split; [exact O|].
  split; [|intros other; apply sync_finds_me].
  simpl Scene.on. apply sync_finds_me.
  eexists. split; [eapply get_Some_values; exact G | reflexivity].
Qed.

(** A run of the event loop: A and B connect, B is told about itself and
    about A, A is told that B joined. *)
Example two_connections :
  let st1 := fst (Server.step Server.init (Server.Connection "A")) in
  snd (Server.step st1 (Server.Connection "B"))
  = [("B", Server.PLAYERS_SYNC
             [("A", Server.spawn "A"); ("B", Server.spawn "B")]);
     ("A", Server.PLAYER_JOIN (Server.spawn "B"))].
Proof. reflexivity. Qed.

(* ===================================================================== *)
(** * The zone strategy *)
(* ===================================================================== *)

Lemma inside_bounds z px py :
  Blueprint.inside z px py = true <->
  PrimFloat.leb (Blueprint.x z) px = true
  /\ PrimFloat.leb px (Blueprint.x z + Blueprint.width z)%float = true
  /\ PrimFloat.leb (Blueprint.y z) py = true
  /\ PrimFloat.leb py (Blueprint.y z + Blueprint.height z)%float = true.
Proof.
  unfold Blueprint.inside, JS.geb. rewrite !andb_true_iff. tauto.
Qed.

Lemma room_found jz px py r :
  Blueprint.getJitsiRoomForPosition jz px py = Some r <->
  exists before z after,
    jz = before ++ (r, z) :: after
    /\ Blueprint.inside z px py = true
    /\ forall e, In e before -> Blueprint.inside (snd e) px py = false.
Proof.
  induction jz as [|[r0 z0] jz IH]; simpl.
  - split; [discriminate|]. intros (b & z & a & E & _).
    destruct b; discriminate.
  - destruct (Blueprint.inside z0 px py) eqn:I0.
    + split.
      * intros E. injection E as <-. exists [], z0, jz. simpl.
        repeat split; auto. intros e [].
      * intros ([|e b] & z & a & E & I & F).
        -- simpl in E. congruence.
        -- simpl in E. inversion E; subst.
           specialize (F _ (or_introl eq_refl)). simpl in F. congruence.
    + rewrite IH. split.
      * intros (b & z & a & E & I & F). exists ((r0, z0) :: b), z, a.
        subst jz. simpl. repeat split; auto.
        intros e [Ee|Hb]; [subst e; exact I0 | auto].
      * intros ([|e b] & z & a & E & I & F).
        -- simpl in E. inversion E; subst. congruence.
        -- simpl in E. inversion E; subst. exists b, z, a.
           repeat split; auto. intros e' He. apply F. now right.
Qed.

Lemma room_not_found jz px py :
  Blueprint.getJitsiRoomForPosition jz px py = None <->
  forall e, In e jz -> Blueprint.inside (snd e) px py = false.
Proof.
  induction jz as [|[r0 z0] jz IH]; simpl.
  - split; [intros _ e [] | reflexivity].
  - destruct (Blueprint.inside z0 px py) eqn:I0.
    + split; [discriminate|]. intros F.
      specialize (F _ (or_introl eq_refl)). simpl in F. congruence.
    + rewrite IH. split.
      * intros F e [Ee|He]; [subst e; exact I0 | auto].
      * intros F e He. apply F. now right.
Qed.

(** C9. Zone membership: [getJitsiRoomForPosition] answers the room of
    the first table entry whose rectangle contains the point, both bounds
    included, and answers none exactly when no rectangle of the table
    contains the point; with several rectangles around the point the
    earliest entry wins. *)
Theorem zone_membership (jz : Blueprint.zoneTable) (px py : JS.num) :
  (forall r,
     Blueprint.getJitsiRoomForPosition jz px py = Some r <->
     exists before z after,
       jz = before ++ (r, z) :: after
       /\ Blueprint.inside z px py = true
       /\ forall e, In e before -> Blueprint.inside (snd e) px py = false)
  /\ (Blueprint.getJitsiRoomForPosition jz px py = None <->
      forall e, In e jz -> Blueprint.inside (snd e) px py = false)
  /\ (forall z,
        Blueprint.inside z px py = true <->
        PrimFloat.leb (Blueprint.x z) px = true
        /\ PrimFloat.leb px (Blueprint.x z + Blueprint.width z)%float = true
        /\ PrimFloat.leb (Blueprint.y z) py = true
        /\ PrimFloat.leb py (Blueprint.y z + Blueprint.height z)%float = true).
Proof.
  split; [intros r; apply room_found|].
  split; [apply room_not_found | intros z; apply inside_bounds].
Qed.

(** The bounds are inclusive, and the first loaded rectangle wins where
    two overlap. *)
Example zone_corners :
  Blueprint.getJitsiRoomForPosition oneZone 0%float 0%float = Some "conf1"
  /\ Blueprint.getJitsiRoomForPosition oneZone 50%float 50%float
     = Some "conf1"
  /\ Blueprint.getJitsiRoomForPosition oneZone 50%float (50 + 1)%float = None
  /\ Blueprint.getJitsiRoomForPosition oneZone (-1)%float 10%float = None.
Proof. repeat split; vm_compute; reflexivity. Qed.

Example first_loaded_wins :
  JS.keys (Blueprint.loadMap overlappingMap []) = ["first"; "second"]
  /\ Blueprint.getJitsiRoomForPosition
       (Blueprint.loadMap overlappingMap []) 45%float 45%float = Some "first"
  /\ Blueprint.getJitsiRoomForPosition
       (Blueprint.loadMap overlappingMap []) 60%float 60%float = Some "second".
Proof. repeat split; vm_compute; reflexivity. Qed.

Lemma loadObject_NoDup jz o :
  NoDup (JS.keys jz) -> NoDup (JS.keys (Blueprint.loadObject jz o)).
Proof.
  intros N. unfold Blueprint.loadObject.
  destruct (Blueprint.properties o) as [props|]; [|assumption].
  destruct (find _ props); [now apply NoDup_keys_set | assumption].
Qed.

(** Zone identifiers are unique in the loaded table. *)
Lemma loadMap_NoDup md jz :
  NoDup (JS.keys jz) -> NoDup (JS.keys (Blueprint.loadMap md jz)).
Proof.
  unfold Blueprint.loadMap.
  destruct (find _ (Blueprint.layers md)) as [l|]; [|auto].
  destruct (Blueprint.objects l) as [objs|]; [|auto].
  revert jz. induction objs as [|o objs IH]; intros jz N; simpl; [assumption|].
  apply IH. now apply loadObject_NoDup.
Qed.

(** C8, as worded, fails: a move from inside conf1 straight into conf2
    emits the join of conf2 and no leave of conf1. *)
Lemma zone_switch_emits_no_close : ~ leaving_emits_one_close.
Proof.
  intros H.
  specialize (H inConf1 twoZones "s1" "conf1" conf1 110%float 110%float
                eq_refl eq_refl eq_refl).
  vm_compute in H. discriminate.
Qed.

Example zone_switch :
  Blueprint.checkJitsiZone inConf1 twoZones "s1" 110%float 110%float
  = ([("player:s1", [("currentJitsiRoom", "conf2")])],
     [Blueprint.join_jitsi "conf2"]).
Proof. vm_compute. reflexivity. Qed.

(** A recomputation emits one event at most. *)
Lemma one_event_at_most db jz sid px py :
  List.length (snd (Blueprint.checkJitsiZone db jz sid px py)) <= 1.
Proof.
  unfold Blueprint.checkJitsiZone, Blueprint.getPlayer.
  destruct (Blueprint.strictEq _ _); simpl; [lia|].
  destruct (Blueprint.entered _); simpl; lia.
Qed.

Lemma count_le_length {E} (p : E -> bool) es : count p es <= List.length es.
Proof. unfold count. apply filter_length_le. Qed.

Lemma join_and_leave_disjoint room es :
  List.length es <= 1 ->
  count (Blueprint.isJoin room) es + count (Blueprint.isLeave room) es <= 1.
Proof.
  destruct es as [|e [|e' es]]; unfold count; simpl; intros L; try lia.
  destruct e as [r|[r|]]; simpl; try lia;
    destruct (String.eqb r room); simpl; lia.
Qed.

Lemma membership_set db sid room :
  Blueprint.membership (Blueprint.setPlayerJitsiRoom db sid room) sid
  = Some (Blueprint.orNull room).
Proof.
  unfold Blueprint.membership, Blueprint.setPlayerJitsiRoom, Blueprint.hSet.
  unfold Blueprint.hGetAll at 1. rewrite get_set_same. apply get_set_same.
Qed.

(** C8, amended. When the stored membership of a player is the zone Z and
    the new position lies inside no rectangle of the table, the
    recomputation clears the stored membership (the field holds the text
    null) and emits exactly one event, the leave of Z; and whatever the
    input, one recomputation emits at most one event, so never the join
    and the leave of one zone together, nor the join of one zone with the
    leave of another. *)
Theorem zone_close_on_leave (db : Blueprint.redis) (jz : Blueprint.zoneTable)
  (sid Z : string) (rect : Blueprint.zone) (px py : JS.num)
  (Hmember : Blueprint.membership db sid = Some Z)
  (Hzone : JS.get jz Z = Some rect)
  (Houtside : Blueprint.getJitsiRoomForPosition jz px py = None) :
  snd (Blueprint.checkJitsiZone db jz sid px py)
  = [Blueprint.leave_jitsi (Some Z)]
  /\ count (Blueprint.isLeave Z)
       (snd (Blueprint.checkJitsiZone db jz sid px py)) = 1
  /\ Blueprint.membership (fst (Blueprint.checkJitsiZone db jz sid px py)) sid
     = Some "null"
  /\ Blueprint.inside rect px py = false
  /\ (forall db0 jz0 sid0 x0 y0,
        List.length (snd (Blueprint.checkJitsiZone db0 jz0 sid0 x0 y0)) <= 1)
  /\ forall db0 jz0 sid0 x0 y0 room,
       count (Blueprint.isJoin room)
         (snd (Blueprint.checkJitsiZone db0 jz0 sid0 x0 y0))
       + count (Blueprint.isLeave room)
           (snd (Blueprint.checkJitsiZone db0 jz0 sid0 x0 y0)) <= 1.
Proof.
  assert (E : Blueprint.checkJitsiZone db jz sid px py
              = (Blueprint.setPlayerJitsiRoom db sid None,
                 [Blueprint.leave_jitsi (Some Z)])).
  { unfold Blueprint.checkJitsiZone, Blueprint.getPlayer.
    unfold Blueprint.membership in Hmember. rewrite Hmember, Houtside.
    reflexivity. }
  rewrite E. simpl fst. simpl snd.
  split; [reflexivity|].
  split; [unfold count; simpl; now rewrite String.eqb_refl|].
  split; [apply membership_set|].
  split.
  { apply get_Some_In in Hzone.
    apply (proj1 (room_not_found jz px py) Houtside (Z, rect) Hzone). }
  split.
  - intros. apply one_event_at_most.
  - intros. apply join_and_leave_disjoint, one_event_at_most.
Qed.

Lemma zone_close_on_leave_witness :
  Blueprint.membership inConf1 "s1" = Some "conf1"
  /\ JS.get oneZone "conf1" = Some conf1
  /\ Blueprint.getJitsiRoomForPosition oneZone 60%float 60%float = None
  /\ snd (Blueprint.checkJitsiZone inConf1 oneZone "s1" 60%float 60%float)
     = [Blueprint.leave_jitsi (Some "conf1")].
Proof.
  split; [reflexivity|]. split; [reflexivity|]. split; [reflexivity|].
  apply (@zone_close_on_leave inConf1 oneZone "s1" "conf1" conf1
           60%float 60%float eq_refl eq_refl eq_refl).
Defined.

(** The scenario of the room conf1 = rect(0, 0, 50, 50): a player who
    moves to (10, 10) and then to (60, 60) is told to join on the first
    recomputation and to leave on the second. *)
Example conf1_scenario :
  let r1 := Blueprint.checkJitsiZone freshDb oneZone "s1" 10%float 10%float in
  let r2 := Blueprint.checkJitsiZone (fst r1) oneZone "s1" 60%float 60%float in
  snd r1 = [Blueprint.join_jitsi "conf1"]
  /\ snd r2 = [Blueprint.leave_jitsi (Some "conf1")]
  /\ Blueprint.membership (fst r2) "s1" = Some "null".
Proof. repeat split; vm_compute; reflexivity. Qed.

(** From the state that [addPlayer] writes, a move outside every zone
    compares the text null with the value null. *)
Example outside_again :
  Blueprint.checkJitsiZone freshDb oneZone "s1" 60%float 60%float
  = (freshDb, [Blueprint.leave_jitsi (Some "null")]).
Proof. vm_compute. reflexivity. Qed.

(* ===================================================================== *)
(** * More on the server handlers *)
(* ===================================================================== *)

Unset Implicit Arguments.

Lemma runServer_reachable inputs : forall st,
  reachable st -> reachable (runServer st inputs).
Proof.
  induction inputs as [|i rest IH]; intros st R; simpl; [exact R|].
  destruct (Server.throws st i); [exact R|].
  apply IH. now constructor.
Qed.

(** X1. Whatever the clients send, the registry keeps one record per id,
    and the [id] written in a record is the key it is stored under. *)
Theorem registry_stays_well_keyed (inputs : list Server.input) :
  wellKeyed (Server.players (runServer Server.init inputs)).
Proof.
  apply reachable_wellKeyed, runServer_reachable. constructor.
Qed.

Lemma In_keys_set {V} (o : JS.obj V) k v k' :
  In k' (JS.keys (JS.set o k v)) <-> In k' (JS.keys o) \/ k' = k.
Proof.
  rewrite keys_set. destruct (JS.includes (JS.keys o) k) eqn:I.
  - apply includes_In in I. split; [auto | intros [H| ->]; auto].
  - rewrite in_app_iff. simpl. intuition.
Qed.

Lemma In_keys_delete {V} (o : JS.obj V) k k' :
  In k' (JS.keys (JS.delete o k)) <-> In k' (JS.keys o) /\ k' <> k.
Proof.
  rewrite keys_delete, filter_In.
  destruct (String.eqb_spec k k'); simpl; intuition congruence.
Qed.

Lemma In_others l sid k :
  In k (filter (fun s => negb (String.eqb s sid)) l) <-> In k l /\ k <> sid.
Proof.
  rewrite filter_In.
  destruct (String.eqb_spec k sid); simpl; intuition congruence.
Qed.

Lemma step_matches st i :
  registryMatchesSockets st ->
  registryMatchesSockets (fst (Server.step st i)).
Proof.
  unfold registryMatchesSockets. intros M k.
  destruct i as [sid|sid d|sid data|sid].
  - simpl. rewrite In_keys_set, in_app_iff, M. simpl. intuition.
  - rewrite step_move.
    destruct (JS.get (Server.players st) sid) as [p|] eqn:G; [|apply M].
    destruct d as [d|]; [|apply M]. simpl.
    rewrite In_keys_set, <- M. split; [|auto].
    intros [H| ->]; [exact H|].
    apply includes_In. eapply get_Some_includes. exact G.
  - rewrite step_signal. apply M.
  - simpl. rewrite In_keys_delete, In_others, M. tauto.
Qed.

(** X2. A record exists exactly for the connected sockets: after any
    sequence of inputs, an id is a key of the registry if and only if its
    socket is connected. *)
Theorem registry_matches_connections (inputs : list Server.input) :
  registryMatchesSockets (runServer Server.init inputs).
Proof.
  assert (G : forall st, registryMatchesSockets st ->
                         registryMatchesSockets (runServer st inputs)).
  { induction inputs as [|i rest IH]; intros st M; simpl; [exact M|].
    destruct (Server.throws st i); [exact M|].
    apply IH. now apply step_matches. }
  apply G. intros k. simpl. tauto.
Qed.

Lemma In_broadcast st sid m r m' :
  In (r, m') (Server.broadcast_emit st sid m)
  <-> In r (Server.sockets st) /\ r <> sid /\ m' = m.
Proof.
  unfold Server.broadcast_emit. rewrite in_map_iff. split.
  - intros (s & E & I). injection E as <- <-. apply In_others in I. tauto.
  - intros (I & N & ->). exists r. split; [reflexivity|].
    apply In_others. tauto.
Qed.

(** X3. A move of a registered socket that carries an object replaces
    the position and the animation of its record, keeps its id and its
    place in the registry and touches no other record; the move is sent
    to every other connected socket and never back to the mover, under
    the id the payload brings when it brings one and under the mover's id
    otherwise. Without payload the listener of a registered socket throws
    instead. *)
Theorem move_updates_and_broadcasts (sid : string) (d : Server.movement)
  (st : Server.state) (p : Server.player)
  (Hregistered : JS.get (Server.players st) sid = Some p) :
  (exists st' out,
     Server.onPlayerMove sid (Some d) st = Server.Returns st' out
     /\ JS.get (Server.players st') sid
        = Some {| Server.id := Server.id p; Server.x := Server.mx d;
                  Server.y := Server.my d; Server.anim := Server.manim d |}
     /\ (forall k, k <> sid ->
           JS.get (Server.players st') k = JS.get (Server.players st) k)
     /\ JS.keys (Server.players st') = JS.keys (Server.players st)
     /\ Server.sockets st' = Server.sockets st
     /\ (forall r m, In (r, m) out <->
           In r (Server.sockets st) /\ r <> sid
           /\ m = Server.PLAYER_MOVE
                    (match Server.mid d with Some i => i | None => sid end) d))
  /\ Server.onPlayerMove sid None st = Server.Throws.
Proof.
  unfold Server.onPlayerMove. rewrite Hregistered. split; [|reflexivity].
  eexists. eexists. split; [reflexivity|]. simpl.
  split; [apply get_set_same|].
  split; [intros k N; apply get_set_other; congruence|].
  split; [rewrite keys_set, (get_Some_includes _ _ Hregistered); reflexivity|].
  split; [reflexivity|].
  intros r m. apply In_broadcast.
Qed.

Lemma move_updates_and_broadcasts_witness :
  JS.get (Server.players lineServer) "B"
  = Some {| Server.id := "B"; Server.x := 10%float; Server.y := 0%float;
            Server.anim := "walk" |}
  /\ (exists st' out,
        Server.onPlayerMove "B" (Some walkAsC) lineServer
        = Server.Returns st' out
        /\ JS.get (Server.players st') "B"
           = Some {| Server.id := "B"; Server.x := 410%float;
                     Server.y := 300%float; Server.anim := "walk" |}
        /\ In ("C", Server.PLAYER_MOVE "C" walkAsC) out).
Proof.
  split; [reflexivity|].
  destruct (move_updates_and_broadcasts "B" walkAsC lineServer
              {| Server.id := "B"; Server.x := 10%float; Server.y := 0%float;
                 Server.anim := "walk" |} eq_refl)
    as [(st' & out & E & G & _ & _ & _ & O) _].
  exists st', out. split; [exact E|]. split; [exact G|].
  apply O. split; [simpl; auto|]. split; [discriminate | reflexivity].
Defined.

Lemma delete_set_fresh {V} (o : JS.obj V) k v :
  JS.get o k = None -> JS.delete (JS.set o k v) k = o.
Proof.
  induction o as [|[k' v'] o IH]; simpl.
  - now rewrite String.eqb_refl.
  - destruct (String.eqb k k') eqn:E; [discriminate|].
    intros G. simpl. rewrite E. now rewrite IH.
Qed.

Lemma others_fresh l sid :
  ~ In sid l -> filter (fun s => negb (String.eqb s sid)) l = l.
Proof.
  induction l as [|a l IH]; simpl; [reflexivity|]. intros N.
  destruct (String.eqb_spec a sid) as [->|]; simpl.
  - exfalso. apply N. now left.
  - rewrite IH; [reflexivity | tauto].
Qed.

Lemma others_snoc l sid :
  ~ In sid l -> filter (fun s => negb (String.eqb s sid)) (l ++ [sid]) = l.
Proof.
  intros N. rewrite filter_app, (others_fresh _ _ N). simpl.
  rewrite String.eqb_refl. simpl. apply app_nil_r.
Qed.

(** X4. A socket with a new id that connects and disconnects leaves the
    server as it found it: the registry and the connected sockets are what
    they were; meanwhile the newcomer got the snapshot, and every socket
    that was connected got one join and one leave for it. *)
Theorem connect_disconnect_roundtrip (sid : string) (st : Server.state)
  (Hfresh : ~ In sid (Server.sockets st))
  (Hnew : JS.get (Server.players st) sid = None) :
  let joined := Server.step st (Server.Connection sid) in
  let left := Server.step (fst joined) (Server.Disconnect sid) in
  fst left = st
  /\ snd joined
     = (sid, Server.PLAYERS_SYNC (Server.players (fst joined)))
       :: map (fun s => (s, Server.PLAYER_JOIN (Server.spawn sid)))
              (Server.sockets st)
  /\ snd left
     = map (fun s => (s, Server.PLAYER_LEAVE sid)) (Server.sockets st).
Proof.
  cbv zeta. destruct st as [ps socks]. simpl in *.
  unfold Server.onDisconnect, Server.onConnect, Server.broadcast_emit,
    Server.io_emit. simpl.
  rewrite (others_snoc _ _ Hfresh), (delete_set_fresh _ _ _ Hnew).
  repeat split.
Qed.

Lemma connect_disconnect_roundtrip_witness :
  ~ In "D" (Server.sockets lineServer)
  /\ fst (Server.step (fst (Server.step lineServer (Server.Connection "D")))
            (Server.Disconnect "D")) = lineServer.
Proof.
  assert (N : ~ In "D" (Server.sockets lineServer)).
  { simpl. intros [H|[H|[H|[]]]]; discriminate. }
  split; [exact N|].
  apply (connect_disconnect_roundtrip "D" lineServer N eq_refl).
Defined.

(* ===================================================================== *)
(** * The scene of a connected socket follows the registry *)
(* ===================================================================== *)

Lemma deliver_cons q e out s :
  deliver q (e :: out) s
  = deliver q out (if String.eqb (fst e) q then Scene.on s (snd e) else s).
Proof. reflexivity. Qed.

Lemma deliver_absent q m l : forall s,
  ~ In q l -> deliver q (map (fun r => (r, m)) l) s = s.
Proof.
  induction l as [|a l IH]; intros s N; [reflexivity|].
  simpl map. rewrite deliver_cons. simpl fst.
  destruct (String.eqb_spec a q) as [->|_].
  - exfalso. apply N. now left.
  - apply IH. intros I. apply N. now right.
Qed.

(** A message emitted to a duplicate-free list of sockets is handled once
    by the scene of a socket of the list, and not at all by another. *)
Lemma deliver_map q m l : forall s,
  NoDup l ->
  deliver q (map (fun r => (r, m)) l) s
  = if JS.includes l q then Scene.on s m else s.
Proof.
  induction l as [|a l IH]; intros s N; [reflexivity|].
  inversion N as [|? ? Na Nl]; subst.
  simpl map. rewrite deliver_cons. simpl fst. simpl snd.
  unfold JS.includes. simpl existsb. fold (JS.includes l q).
  rewrite (String.eqb_sym q a).
  destruct (String.eqb_spec a q) as [->|Nq]; simpl orb.
  - apply deliver_absent. exact Na.
  - apply IH. exact Nl.
Qed.

Lemma NoDup_others l sid :
  NoDup l -> NoDup (filter (fun s => negb (String.eqb s sid)) l).
Proof. apply NoDup_filter. Qed.

Lemma deliver_broadcast st sid m q s :
  NoDup (Server.sockets st) ->
  deliver q (Server.broadcast_emit st sid m) s
  = if JS.includes (Server.sockets st) q && negb (String.eqb q sid)
    then Scene.on s m else s.
Proof.
  intros N. unfold Server.broadcast_emit.
  rewrite deliver_map by now apply NoDup_others.
  destruct (JS.includes (filter _ (Server.sockets st)) q) eqn:I.
  - apply includes_In, In_others in I. destruct I as [I Nq].
    apply includes_In in I. rewrite I.
    now destruct (String.eqb_spec q sid).
  - apply includes_false in I. rewrite In_others in I.
    destruct (JS.includes (Server.sockets st) q) eqn:J; [|reflexivity].
    apply includes_In in J.
    destruct (String.eqb_spec q sid); [reflexivity | tauto].
Qed.

Lemma mirrors_set st s q k p :
  k <> q -> mirrors st s q ->
  mirrors
    {| Server.players := JS.set (Server.players st) k p;
       Server.sockets := Server.sockets st |}
    {| Scene.players := JS.set (Scene.players s) k (spriteOf p);
       Scene.myPlayerId := Scene.myPlayerId s; Scene.player := Scene.player s |}
    q.
Proof.
  intros Nk M k' Nk'. simpl.
  destruct (String.eqb_spec k k') as [<-|N].
  - now rewrite !get_set_same.
  - rewrite !get_set_other by assumption. now apply M.
Qed.

(** Signals are not for the scene. *)
Lemma deliver_signals q out : forall s,
  (forall e, In e out -> exists a b, snd e = Server.WEBRTC_SIGNAL a b) ->
  deliver q out s = s.
Proof.
  induction out as [|e out IH]; intros s H; [reflexivity|].
  rewrite deliver_cons.
  destruct (H e (or_introl eq_refl)) as (a & b & E). rewrite E.
  cbn [Scene.on].
  destruct (String.eqb (fst e) q); apply IH;
    intros e' He; apply H; now right.
Qed.

Lemma step_signal_out st sid data e :
  In e (snd (Server.step st (Server.WebrtcSignal sid data))) ->
  exists d, data = Some d
    /\ snd e = Server.WEBRTC_SIGNAL sid (Server.signal d)
    /\ In (fst e) (Server.sockets st).
Proof.
  simpl. unfold Server.onWebrtcSignal.
  destruct data as [d|]; [|intros []].
  destruct (negb _ || negb _); [intros []|]. simpl. intros H.
  apply io_to_emit_In in H. destruct H as (A & B & _).
  exists d. auto.
Qed.

(** What the [PLAYERS_SYNC] listener leaves in a scene that does not know
    its id: every record becomes a foreign sprite. *)
Lemma sync_fold_without_id rs : forall s0,
  Scene.myPlayerId s0 = None ->
  let s := fold_left
             (fun s p => if Scene.isMe s p then Scene.createMyPlayer s p
                         else Scene.addOtherPlayer s p) rs s0 in
  Scene.myPlayerId s = None
  /\ Scene.player s = Scene.player s0
  /\ forall k,
       JS.get (Scene.players s) k
       = match lastSprite rs k with
         | Some sp => Some sp
         | None => JS.get (Scene.players s0) k
         end.
Proof.
  induction rs as [|p rs IH]; intros s0 Hme; simpl.
  - repeat split; auto.
  - assert (Hm : Scene.isMe s0 p = false)
      by (unfold Scene.isMe; now rewrite Hme).
    rewrite Hm.
    destruct (IH (Scene.addOtherPlayer s0 p) Hme) as (A & B & D).
    repeat split; auto.
    intros k. rewrite (D k).
    destruct (lastSprite rs k); [reflexivity|]. simpl.
    destruct (String.eqb_spec (Server.id p) k) as [->|N'].
    + apply get_set_same.
    + now apply get_set_other.
Qed.

(** One admissible input keeps the scene attached, and leaves alone the
    id of the scene, its local player and what it holds under the id of
    its own socket. *)
Lemma step_attached st s q i :
  attached st s q -> admissible st q i ->
  let s' := deliver q (snd (Server.step st i)) s in
  attached (fst (Server.step st i)) s' q
  /\ Scene.myPlayerId s' = Scene.myPlayerId s
  /\ Scene.player s' = Scene.player s
  /\ JS.get (Scene.players s') q = JS.get (Scene.players s) q.
Proof.
  intros (N & I & M) A. cbv zeta.
  destruct i as [sid|sid d|sid data|sid]; simpl in A.
  - (* another socket connects *)
    assert (Nq : sid <> q) by (intros ->; contradiction).
    assert (N' : NoDup (Server.sockets st ++ [sid])).
    { apply NoDup_app; [assumption | repeat constructor; intros [] |].
      intros x Hx [<-|[]]. contradiction. }
    unfold Server.step, Server.onConnect, Server.socket_emit.
    cbv zeta. cbn [fst snd app Server.players Server.sockets].
    rewrite deliver_cons. cbn [fst snd].
    destruct (String.eqb_spec sid q) as [E|_]; [contradiction|].
    rewrite deliver_broadcast by exact N'. simpl Server.sockets.
    assert (J : JS.includes (Server.sockets st ++ [sid]) q = true).
    { apply includes_In, in_app_iff. now left. }
    rewrite J. destruct (String.eqb_spec q sid) as [E|_]; [congruence|].
    cbn [andb negb Scene.on]. unfold Scene.addOtherPlayer.
    cbn [Scene.players Scene.myPlayerId Scene.player].
    split; [|split; [reflexivity|split; [reflexivity|]]].
    + split; [exact N'|]. split; [apply in_app_iff; now left|].
      apply (mirrors_set st s q sid (Server.spawn sid) Nq M).
    + apply get_set_other. exact Nq.
  - (* a move *)
    rewrite step_move.
    destruct (JS.get (Server.players st) sid) as [p|] eqn:G;
      [|now repeat split].
    destruct d as [d|]; [|now repeat split].
    cbn [fst snd]. rewrite A.
    rewrite deliver_broadcast by exact N.
    apply includes_In in I. rewrite I. simpl andb.
    apply includes_In in I.
    destruct (String.eqb_spec q sid) as [<-|Nq]; cbn [negb].
    + split; [|now repeat split].
      split; [exact N|]. split; [exact I|].
      intros k Nk. cbn [Server.players].
      rewrite get_set_other by congruence. now apply M.
    + cbn [Scene.on]. unfold Scene.updateOtherPlayer.
      rewrite (M sid (not_eq_sym Nq)), G. cbn [option_map].
      cbn [Scene.players Scene.myPlayerId Scene.player].
      split; [|split; [reflexivity|split; [reflexivity|]]].
      * split; [exact N|]. split; [exact I|].
        apply (mirrors_set st s q sid
                 {| Server.id := Server.id p; Server.x := Server.mx d;
                    Server.y := Server.my d; Server.anim := Server.manim d |}
                 (not_eq_sym Nq) M).
      * apply get_set_other. congruence.
  - (* a signal *)
    rewrite step_signal, deliver_signals; [now repeat split|].
    intros e He. apply step_signal_out in He.
    destruct He as (d & _ & E & _). eauto.
  - (* another socket disconnects *)
    unfold Server.step, Server.onDisconnect, Server.io_emit.
    cbv zeta. cbn [fst snd Server.players Server.sockets].
    rewrite deliver_map by now apply NoDup_others.
    assert (J : In q (filter (fun s0 => negb (String.eqb s0 sid))
                        (Server.sockets st))).
    { apply In_others. split; [assumption | congruence]. }
    apply includes_In in J. rewrite J. cbn [Scene.on].
    destruct (removePlayer_gone s sid) as [_ Pl].
    split; [|split; [|split; [exact Pl|]]].
    + split; [now apply NoDup_others|]. split; [now apply includes_In|].
      intros k Nk. simpl. unfold Scene.removePlayer.
      destruct (String.eqb_spec sid k) as [<-|Nsk].
      * rewrite get_delete_same.
        destruct (JS.get (Scene.players s) sid) eqn:Gs; simpl.
        -- apply get_delete_same.
        -- exact Gs.
      * rewrite get_delete_other by assumption.
        destruct (JS.get (Scene.players s) sid) eqn:Gs; simpl.
        -- rewrite get_delete_other by assumption. now apply M.
        -- now apply M.
    + unfold Scene.removePlayer.
      now destruct (JS.get (Scene.players s) sid).
    + unfold Scene.removePlayer.
      destruct (JS.get (Scene.players s) sid) eqn:Gs; simpl; [|reflexivity].
      now apply get_delete_other.
Qed.

(** The connection of a new socket attaches the scene that was created
    before the socket had an id: every record of the snapshot, its own
    included, becomes a foreign sprite. *)
Lemma join_attached st q :
  wellKeyed (Server.players st) -> NoDup (Server.sockets st) ->
  ~ In q (Server.sockets st) ->
  let s := deliver q (snd (Server.step st (Server.Connection q)))
             (Scene.create None) in
  attached (fst (Server.step st (Server.Connection q))) s q
  /\ Scene.myPlayerId s = None
  /\ Scene.player s = None
  /\ JS.get (Scene.players s) q = Some (spriteOf (Server.spawn q)).
Proof.
  intros W N Fr. cbv zeta.
  assert (N' : NoDup (Server.sockets st ++ [q])).
  { apply NoDup_app; [assumption | repeat constructor; intros [] |].
    intros x Hx [<-|[]]. contradiction. }
  assert (W' : wellKeyed (JS.set (Server.players st) q (Server.spawn q)))
    by now apply wellKeyed_set.
  unfold Server.step, Server.onConnect, Server.socket_emit.
  cbv zeta. cbn [fst snd app Server.players Server.sockets].
  rewrite deliver_cons. cbn [fst snd]. rewrite String.eqb_refl.
  rewrite deliver_broadcast by exact N'.
  rewrite String.eqb_refl, andb_false_r.
  cbn [Scene.on]. unfold Scene.onPlayersSync.
  destruct (sync_fold_without_id
              (JS.values (JS.set (Server.players st) q (Server.spawn q)))
              (Scene.create None) eq_refl) as (A & B & D).
  cbv zeta in A, B, D.
  set (s := fold_left _ _ _) in *.
  split; [|split; [exact A|split; [exact B|]]].
  - split; [exact N'|]. split; [apply in_app_iff; right; now left|].
    intros k Nk. rewrite (D k), (lastSprite_get k W').
    cbn [Server.players].
    now destruct (JS.get (JS.set (Server.players st) q (Server.spawn q)) k).
  - rewrite (D q), (lastSprite_get q W'), get_set_same. reflexivity.
Qed.

(** Admissible inputs keep the scene attached, however many. *)
Lemma serve_attached q inputs : forall st s,
  attached st s q -> admissibleRun st q inputs ->
  attached (fst (serve q inputs st s)) (snd (serve q inputs st s)) q
  /\ Scene.myPlayerId (snd (serve q inputs st s)) = Scene.myPlayerId s
  /\ Scene.player (snd (serve q inputs st s)) = Scene.player s
  /\ JS.get (Scene.players (snd (serve q inputs st s))) q
     = JS.get (Scene.players s) q.
Proof.
  induction inputs as [|i rest IH]; intros st s A R;
    [split; [exact A | now repeat split]|].
  simpl serve. simpl in R. destruct R as [Ai R].
  destruct (Server.throws st i); [split; [exact A | now repeat split]|].
  destruct (step_attached st s q i A Ai) as (A' & E1 & E2 & E3).
  destruct (IH _ _ A' R) as (A'' & F1 & F2 & F3).
  split; [exact A''|]. split; [congruence|]. split; congruence.
Qed.

Lemma session_eq q st after :
  session q st after
  = serve q after (fst (Server.step st (Server.Connection q)))
      (deliver q (snd (Server.step st (Server.Connection q)))
         (Scene.create None)).
Proof. reflexivity. Qed.

(** X5. The scene of a connected socket follows the registry. Take a
    scene created while its socket was still connecting, a server with a
    well-keyed registry and distinct connected sockets, and let the
    socket connect under a new id and the server handle further inputs,
    among which no connection reuses the id of a connected socket, the
    socket itself does not disconnect and no move names another socket
    than its own. Then the scene holds a sprite for exactly the other
    registered players, each where the registry has it; it holds its own
    spawn record as one more foreign sprite, and it has no local
    player. *)
Theorem scene_mirrors_registry (q : string) (st : Server.state)
  (after : list Server.input)
  (Hkeys : wellKeyed (Server.players st))
  (Hsockets : NoDup (Server.sockets st))
  (Hfresh : ~ In q (Server.sockets st))
  (Hrun : admissibleRun (fst (Server.step st (Server.Connection q))) q after) :
  let st' := fst (session q st after) in
  let s := snd (session q st after) in
  (forall k, k <> q ->
     JS.get (Scene.players s) k
     = option_map spriteOf (JS.get (Server.players st') k))
  /\ JS.get (Scene.players s) q
     = Some {| Scene.x := 400%float; Scene.y := 300%float |}
  /\ Scene.player s = None.
Proof.
  cbv zeta. rewrite session_eq.
  destruct (join_attached st q Hkeys Hsockets Hfresh) as (A & _ & P & Own).
  destruct (serve_attached q after _ _ A Hrun) as ((_ & _ & M) & _ & P' & Own').
  split; [exact M|]. split; [now rewrite Own', Own | now rewrite P', P].
Qed.

Lemma scene_mirrors_registry_witness :
  ~ In "A" (Server.sockets (runServer Server.init shortRun))
  /\ JS.get (Scene.players
               (snd (session "A" (runServer Server.init shortRun) laterRun))) "D"
     = Some {| Scene.x := 400%float; Scene.y := 300%float |}
  /\ JS.get (Scene.players
               (snd (session "A" (runServer Server.init shortRun) laterRun))) "B"
     = None
  /\ Scene.player
       (snd (session "A" (runServer Server.init shortRun) laterRun)) = None.
Proof.
  assert (W : wellKeyed (Server.players (runServer Server.init shortRun))).
  { apply reachable_wellKeyed, runServer_reachable. constructor. }
  assert (N : NoDup (Server.sockets (runServer Server.init shortRun))).
  { vm_compute. repeat constructor. intros []. }
  assert (F : ~ In "A" (Server.sockets (runServer Server.init shortRun))).
  { vm_compute. intros [H|[]]. discriminate. }
  assert (R : admissibleRun
                (fst (Server.step (runServer Server.init shortRun)
                        (Server.Connection "A"))) "A" laterRun).
  { vm_compute. repeat split; try discriminate.
    intros H. repeat (destruct H as [H|H]; [discriminate|]). exact H. }
  destruct (scene_mirrors_registry "A" (runServer Server.init shortRun)
              laterRun W N F R) as (M & _ & P).
  split; [exact F|]. split; [|split; [|exact P]].
  - rewrite (M "D") by discriminate. reflexivity.
  - rewrite (M "B") by discriminate. reflexivity.
Defined.

(** A scene that does not know its id stays without local player. *)
Lemma on_without_id s m :
  Scene.myPlayerId s = None -> Scene.player s = None ->
  Scene.myPlayerId (Scene.on s m) = None /\ Scene.player (Scene.on s m) = None.
Proof.
  intros I P. destruct m as [snapshot|p|pid d|pid|a b]; simpl.
  - unfold Scene.onPlayersSync.
    destruct (sync_fold_without_id (JS.values snapshot) s I) as (A & B & _).
    cbv zeta in A, B. split; [exact A | now rewrite B].
  - now split.
  - unfold Scene.updateOtherPlayer.
    now destruct (JS.get (Scene.players s) pid).
  - unfold Scene.removePlayer.
    now destruct (JS.get (Scene.players s) pid).
  - now split.
Qed.

Lemma lastSprite_None rs me :
  (forall p, In p rs -> Server.id p <> me) -> lastSprite rs me = None.
Proof.
  induction rs as [|p rs IH]; intros H; [reflexivity|]. simpl.
  rewrite IH by (intros p' I; apply H; now right).
  destruct (String.eqb_spec (Server.id p) me) as [E|_]; [|reflexivity].
  exfalso. apply (H p); [now left | exact E].
Qed.

(** A scene that knows its id stays without local player as long as no
    snapshot brings a record of that id. *)
Lemma on_without_record s m me :
  Scene.myPlayerId s = Some me -> Scene.player s = None ->
  (forall snapshot, m = Server.PLAYERS_SYNC snapshot ->
     forall p, In p (JS.values snapshot) -> Server.id p <> me) ->
  Scene.myPlayerId (Scene.on s m) = Some me
  /\ Scene.player (Scene.on s m) = None.
Proof.
  intros I P H. destruct m as [snapshot|p|pid d|pid|a b]; simpl.
  - unfold Scene.onPlayersSync.
    destruct (@sync_fold me (JS.values snapshot) s I) as (A & B & _).
    cbv zeta in A, B. split; [exact A|].
    rewrite B, (lastSprite_None (JS.values snapshot) me (H snapshot eq_refl)).
    exact P.
  - now split.
  - unfold Scene.updateOtherPlayer.
    now destruct (JS.get (Scene.players s) pid).
  - unfold Scene.removePlayer.
    now destruct (JS.get (Scene.players s) pid).
  - now split.
Qed.

(** X6. The local player comes from a snapshot or not at all. A scene
    created before its socket has an id never gets a local player,
    whatever messages it handles afterwards: [create()] reads [socket.id]
    once, and every record of a snapshot is stored as a foreign sprite,
    the scene's own included. A scene created with its id stays without
    local player as long as no snapshot it handles holds a record of that
    id, in particular when the snapshot was sent before the scene
    listened. Without local player [checkProximity] returns before
    emitting and no frame touches the peers. *)
Theorem no_snapshot_no_local_player (msgs : list Server.message)
  (socketId : string) (ps : WebRTC.peers) :
  let s := fold_left Scene.on msgs (Scene.create None) in
  Scene.player s = None
  /\ Scene.checkProximity s = None
  /\ App.tick socketId s ps = (ps, [])
  /\ (forall snapshot k p,
        JS.get snapshot k = Some p -> Server.id p = k ->
        wellKeyed snapshot ->
        JS.get (Scene.players (Scene.on (Scene.create None)
                                 (Server.PLAYERS_SYNC snapshot))) k
        = Some {| Scene.x := Server.x p; Scene.y := Server.y p |})
  /\ ((forall snapshot, In (Server.PLAYERS_SYNC snapshot) msgs ->
         forall p, In p (JS.values snapshot) -> Server.id p <> socketId) ->
      let s' := fold_left Scene.on msgs (Scene.create (Some socketId)) in
      Scene.player s' = None
      /\ Scene.checkProximity s' = None
      /\ App.tick socketId s' ps = (ps, [])).
Proof.
  cbv zeta.
  assert (G : forall s,
            Scene.myPlayerId s = None -> Scene.player s = None ->
            Scene.player (fold_left Scene.on msgs s) = None).
  { induction msgs as [|m msgs IH]; intros s I P; [exact P|]. simpl.
    destruct (on_without_id s m I P) as [I' P']. now apply IH. }
  assert (P : Scene.player (fold_left Scene.on msgs (Scene.create None)) = None)
    by now apply G.
  split; [exact P|].
  unfold App.tick, Scene.checkProximity. rewrite P.
  split; [reflexivity|]. split; [reflexivity|]. split.
  - intros snapshot k p Gk Ek W. simpl. unfold Scene.onPlayersSync.
    destruct (sync_fold_without_id (JS.values snapshot) (Scene.create None)
                eq_refl) as (_ & _ & D).
    cbv zeta in D. rewrite (D k), (lastSprite_get k W), Gk. reflexivity.
  - intros H.
    assert (G' : forall s,
              Scene.myPlayerId s = Some socketId -> Scene.player s = None ->
              Scene.player (fold_left Scene.on msgs s) = None).
    { clear G P. induction msgs as [|m msgs IH]; intros s I P; [exact P|].
      simpl.
      destruct (on_without_record s m socketId I P) as [I' P'].
      - intros snapshot ->. apply H. now left.
      - apply IH; [|exact I'|exact P'].
        intros snapshot Hin. apply H. now right. }
    rewrite (G' (Scene.create (Some socketId)) eq_refl eq_refl).
    now repeat split.
Qed.

(** A scene created once the socket is connected has missed the
    snapshot: what follows gives it sprites, never a local player. *)
Example scene_created_after_connection :
  let s := fold_left Scene.on
             [ Server.PLAYER_JOIN (Server.spawn "D");
               Server.PLAYER_MOVE "D" walkOfB; Server.PLAYER_LEAVE "B" ]
             (Scene.create (Some "A")) in
  Scene.player s = None
  /\ JS.keys (Scene.players s) = ["D"]
  /\ Scene.checkProximity s = None.
Proof. repeat split. Qed.

(* ===================================================================== *)
(** * More on the WebRTC service and its listeners *)
(* ===================================================================== *)

Lemma get_delete_Some {V} (o : JS.obj V) x k v :
  JS.get (JS.delete o x) k = Some v -> JS.get o k = Some v.
Proof.
  destruct (String.eqb_spec x k) as [<-|N].
  - now rewrite get_delete_same.
  - now rewrite get_delete_other.
Qed.

(** The peers after the first pass of the listener. *)
Lemma connect_get me k : forall arr ps,
  JS.get (fst (forEach arr (App.connectClose me) ps)) k
  = match JS.get ps k with
    | Some p => Some p
    | None =>
        if JS.includes arr k && JS.str_lt me k
        then Some {| WebRTC.initiator := true |} else None
    end.
Proof.
  induction arr as [|x arr IH]; intros ps.
  - simpl. now destruct (JS.get ps k).
  - rewrite forEach_cons. cbn [fst]. rewrite IH. clear IH.
    unfold JS.includes. simpl existsb. fold (JS.includes arr k).
    destruct (JS.get ps x) as [px|] eqn:Gx.
    + rewrite (@connectClose_present me ps x px Gx). cbn [fst].
      destruct (JS.get ps k) eqn:Gk; [reflexivity|].
      destruct (String.eqb_spec k x) as [->|]; [congruence | reflexivity].
    + rewrite (@connectClose_absent me ps x Gx).
      destruct (JS.str_lt me x) eqn:L; cbn [fst].
      * destruct (String.eqb_spec k x) as [->|N].
        -- rewrite get_set_same, Gx. cbn [orb andb]. now rewrite L.
        -- rewrite get_set_other by congruence. reflexivity.
      * destruct (JS.get ps k) eqn:Gk; [reflexivity|].
        destruct (String.eqb_spec k x) as [->|N]; [|reflexivity].
        cbn [orb]. rewrite L, !andb_false_r. reflexivity.
Qed.

(** The peers after the listener, key by key. *)
Lemma proximityUpdate_get me closePlayers ps k :
  JS.get (fst (App.proximityUpdate me closePlayers ps)) k
  = if JS.includes closePlayers k
    then match JS.get ps k with
         | Some p => Some p
         | None => if JS.str_lt me k
                   then Some {| WebRTC.initiator := true |} else None
         end
    else None.
Proof.
  rewrite proximityUpdate_eq. cbn [fst].
  set (ps1 := fst (forEach closePlayers (App.connectClose me) ps)).
  destruct (JS.includes closePlayers k) eqn:I.
  - apply includes_In in I.
    destruct (@disconnect_keeps closePlayers k I (JS.keys ps1) ps1) as [D _].
    rewrite D. unfold ps1. rewrite connect_get.
    apply includes_In in I. now rewrite I.
  - apply includes_false in I.
    destruct (@disconnect_far closePlayers k I (JS.keys ps1) ps1) as [D _].
    rewrite D. destruct (JS.includes (JS.keys ps1) k) eqn:J; [reflexivity|].
    apply includes_false in J. now apply get_None_keys.
Qed.

(** X7. The peers after the [proximityUpdate] listener are determined by
    the close ids: no peer is left for an id that is not close; a peer
    that existed for a close id is kept as it was; a close id without a
    peer gets an initiating peer exactly when the own id is the smaller
    one. *)
Theorem proximityUpdate_peers (me : string) (closePlayers : list string)
  (ps : WebRTC.peers) :
  let ps' := fst (App.proximityUpdate me closePlayers ps) in
  (forall k, ~ In k closePlayers -> JS.get ps' k = None)
  /\ (forall k p, In k closePlayers -> JS.get ps k = Some p ->
        JS.get ps' k = Some p)
  /\ (forall k, In k closePlayers -> JS.get ps k = None ->
        JS.get ps' k
        = if JS.str_lt me k then Some {| WebRTC.initiator := true |} else None).
Proof.
  cbv zeta. repeat split; intros.
  - rewrite proximityUpdate_get.
    apply includes_false in H. now rewrite H.
  - rewrite proximityUpdate_get.
    apply includes_In in H. now rewrite H, H0.
  - rewrite proximityUpdate_get.
    apply includes_In in H. now rewrite H, H0.
Qed.

Lemma connect_quiet me : forall arr ps,
  (forall x, In x arr -> JS.get ps x = None -> JS.str_lt me x = false) ->
  forEach arr (App.connectClose me) ps = (ps, []).
Proof.
  induction arr as [|x arr IH]; intros ps H; [reflexivity|].
  rewrite forEach_cons.
  assert (E : App.connectClose me ps x = (ps, [])).
  { unfold App.connectClose. destruct (JS.get ps x) eqn:G; [reflexivity|].
    now rewrite (H x (or_introl eq_refl) G). }
  rewrite E. cbn [fst snd]. rewrite IH; [reflexivity|].
  intros y Hy. apply H. now right.
Qed.

Lemma disconnect_quiet closePlayers : forall arr ps,
  (forall k, In k arr -> In k closePlayers) ->
  forEach arr (App.disconnectFar closePlayers) ps = (ps, []).
Proof.
  induction arr as [|x arr IH]; intros ps H; [reflexivity|].
  rewrite forEach_cons.
  assert (E : App.disconnectFar closePlayers ps x = (ps, [])).
  { unfold App.disconnectFar.
    pose proof (H x (or_introl eq_refl)) as I. apply includes_In in I.
    now rewrite I. }
  rewrite E. cbn [fst snd]. rewrite IH; [reflexivity|].
  intros y Hy. apply H. now right.
Qed.

(** X8. The listener is idempotent: run again on the same close ids, it
    changes no peer and calls nothing, however many frames repeat the
    same [proximityUpdate]. *)
Theorem proximityUpdate_idempotent (me : string) (closePlayers : list string)
  (ps : WebRTC.peers) :
  let ps' := fst (App.proximityUpdate me closePlayers ps) in
  App.proximityUpdate me closePlayers ps' = (ps', []).
Proof.
  cbv zeta. set (ps' := fst (App.proximityUpdate me closePlayers ps)).
  assert (G : forall k, JS.get ps' k
              = if JS.includes closePlayers k
                then match JS.get ps k with
                     | Some p => Some p
                     | None => if JS.str_lt me k
                               then Some {| WebRTC.initiator := true |}
                               else None
                     end
                else None)
    by (intros k; apply proximityUpdate_get).
  unfold App.proximityUpdate.
  rewrite connect_quiet.
  - rewrite disconnect_quiet; [reflexivity|].
    intros k Hk. apply includes_In.
    destruct (JS.includes closePlayers k) eqn:I; [reflexivity|].
    exfalso. specialize (G k). rewrite I in G.
    apply get_None_keys in G. contradiction.
  - intros x Hx Gx. specialize (G x). apply includes_In in Hx.
    rewrite Hx, Gx in G. destruct (JS.get ps x); [discriminate|].
    now destruct (JS.str_lt me x).
Qed.

Lemma connect_effects me : forall arr ps e,
  In e (snd (forEach arr (App.connectClose me) ps)) ->
  exists k, e = WebRTC.NewPeer k true /\ In k arr
            /\ JS.get ps k = None /\ JS.str_lt me k = true.
Proof.
  induction arr as [|x arr IH]; intros ps e He; [destruct He|].
  rewrite forEach_cons in He. cbn [snd] in He.
  apply in_app_iff in He.
  destruct (JS.get ps x) as [px|] eqn:Gx.
  - rewrite (@connectClose_present me ps x px Gx) in He. cbn [fst snd] in He.
    destruct He as [[]|He].
    destruct (IH _ _ He) as (k & E & I & G & L).
    exists k. auto using in_cons.
  - rewrite (@connectClose_absent me ps x Gx) in He.
    destruct (JS.str_lt me x) eqn:L; cbn [fst snd] in He.
    + destruct He as [[<-|[]]|He].
      * exists x. auto using in_eq.
      * destruct (IH _ _ He) as (k & E & I & G & Lk).
        exists k. repeat split; auto using in_cons.
        destruct (String.eqb_spec x k) as [<-|N]; [exact Gx|].
        now rewrite get_set_other in G.
    + destruct He as [[]|He].
      destruct (IH _ _ He) as (k & E & I & G & Lk).
      exists k. auto using in_cons.
Qed.

Lemma disconnect_effects closePlayers : forall arr ps e,
  In e (snd (forEach arr (App.disconnectFar closePlayers) ps)) ->
  exists k, e = WebRTC.PeerDestroy k /\ In k arr
            /\ ~ In k closePlayers /\ JS.get ps k <> None.
Proof.
  induction arr as [|x arr IH]; intros ps e He; [destruct He|].
  rewrite forEach_cons in He. cbn [snd] in He.
  apply in_app_iff in He.
  unfold App.disconnectFar, WebRTC.removePeer in He.
  destruct (JS.includes closePlayers x) eqn:I; cbn [negb fst snd] in He.
  - destruct He as [[]|He].
    destruct (IH _ _ He) as (k & E & Ik & N & G).
    exists k. auto using in_cons.
  - apply includes_false in I.
    destruct (JS.get ps x) as [px|] eqn:Gx; cbn [fst snd] in He.
    + destruct He as [[<-|[]]|He].
      * exists x. repeat split; auto using in_eq. congruence.
      * destruct (IH _ _ He) as (k & E & Ik & N & G).
        exists k. repeat split; auto using in_cons.
        destruct (JS.get (JS.delete ps x) k) as [v|] eqn:Gd; [|congruence].
        rewrite (get_delete_Some ps x k v Gd). discriminate.
    + destruct He as [[]|He].
      destruct (IH _ _ He) as (k & E & Ik & N & G).
      exists k. auto using in_cons.
Qed.

(** X9. What the listener calls: every peer it creates is an initiating
    peer for a close id that had no peer and is above the own id; every
    peer it destroys existed and is for an id that is not close; it never
    feeds a signal to a peer. *)
Theorem proximityUpdate_effects (me : string) (closePlayers : list string)
  (ps : WebRTC.peers) (e : WebRTC.effect)
  (Hemitted : In e (snd (App.proximityUpdate me closePlayers ps))) :
  (exists k, e = WebRTC.NewPeer k true /\ In k closePlayers
             /\ JS.get ps k = None /\ JS.str_lt me k = true)
  \/ (exists k, e = WebRTC.PeerDestroy k /\ ~ In k closePlayers
                /\ JS.get ps k <> None).
Proof.
  rewrite proximityUpdate_eq in Hemitted. cbn [snd] in Hemitted.
  apply in_app_iff in Hemitted. destruct Hemitted as [H|H].
  - left. now apply connect_effects.
  - right. apply disconnect_effects in H.
    destruct H as (k & E & _ & N & G). exists k. repeat split; auto.
    now rewrite connect_outside in G.
Qed.

Lemma proximityUpdate_effects_witness :
  In (WebRTC.PeerDestroy "B") (snd (App.proximityUpdate "A" ["C"] peersOfA))
  /\ exists k, WebRTC.PeerDestroy "B" = WebRTC.PeerDestroy k
               /\ ~ In k ["C"] /\ JS.get peersOfA k <> None.
Proof.
  assert (I : In (WebRTC.PeerDestroy "B")
                (snd (App.proximityUpdate "A" ["C"] peersOfA)))
    by (vm_compute; auto).
  split; [exact I|].
  destruct (proximityUpdate_effects "A" ["C"] peersOfA _ I)
    as [(k & E & _)|H]; [discriminate | exact H].
Defined.

Lemma handleSignal_get ps senderId signal k :
  JS.get (fst (WebRTC.handleSignal ps senderId signal)) k
  = match JS.get ps k with
    | Some p => Some p
    | None => if String.eqb k senderId
              then Some {| WebRTC.initiator := false |} else None
    end.
Proof.
  unfold WebRTC.handleSignal, WebRTC.createPeer.
  destruct (JS.get ps senderId) as [p|] eqn:G; cbn [fst].
  - destruct (JS.get ps k) eqn:Gk; [reflexivity|].
    destruct (String.eqb_spec k senderId); [congruence | reflexivity].
  - destruct (String.eqb_spec k senderId) as [->|N].
    + now rewrite get_set_same, G.
    + rewrite get_set_other by congruence. now destruct (JS.get ps k).
Qed.

Lemma handle_upward me ps e :
  initiatesUpward me ps -> initiatesUpward me (fst (Client.handle me ps e)).
Proof.
  intros U k p G I. destruct e as [closePlayers|senderId signal]; simpl in G.
  - rewrite proximityUpdate_get in G.
    destruct (JS.includes closePlayers k); [|discriminate].
    destruct (JS.get ps k) as [p0|] eqn:Gk.
    + injection G as <-. exact (U k p0 Gk I).
    + now destruct (JS.str_lt me k).
  - rewrite handleSignal_get in G.
    destruct (JS.get ps k) as [p0|] eqn:Gk.
    + injection G as <-. exact (U k p0 Gk I).
    + destruct (String.eqb k senderId); [|discriminate].
      injection G as <-. discriminate.
Qed.

Lemma run_upward me events : forall ps,
  initiatesUpward me ps ->
  initiatesUpward me (fst (forEach events (Client.handle me) ps)).
Proof.
  induction events as [|e events IH]; intros ps U; [exact U|].
  rewrite forEach_cons. cbn [fst]. apply IH. now apply handle_upward.
Qed.

(** X10. Whatever proximity updates and signals a client handles, from a
    service without peers, every initiating peer it holds is for an id
    above its own in the string order. An incoming signal never replaces
    a peer that exists; when the sender has no peer it creates one for
    the sender, and that peer answers ([initiator] false); it touches no
    other peer, and the only peer it ever creates is that answering
    one. *)
Theorem initiator_only_towards_larger_ids (me : string)
  (events : list Client.event) :
  initiatesUpward me (fst (Client.run me events))
  /\ forall ps senderId signal,
       (forall p, JS.get ps senderId = Some p ->
          JS.get (fst (WebRTC.handleSignal ps senderId signal)) senderId
          = Some p)
       /\ (JS.get ps senderId = None ->
           JS.get (fst (WebRTC.handleSignal ps senderId signal)) senderId
           = Some {| WebRTC.initiator := false |})
       /\ (forall k, k <> senderId ->
             JS.get (fst (WebRTC.handleSignal ps senderId signal)) k
             = JS.get ps k)
       /\ (forall k i,
             In (WebRTC.NewPeer k i)
                (snd (WebRTC.handleSignal ps senderId signal)) ->
             k = senderId /\ i = false /\ JS.get ps senderId = None).
Proof.
  split.
  - apply run_upward. intros k p G. discriminate.
  - intros ps senderId signal. split; [|split; [|split]].
    + intros p G. now rewrite handleSignal_get, G.
    + intros G. now rewrite handleSignal_get, G, String.eqb_refl.
    + intros k N. rewrite handleSignal_get.
      destruct (JS.get ps k); [reflexivity|].
      now destruct (String.eqb_spec k senderId).
    + intros k i. unfold WebRTC.handleSignal, WebRTC.createPeer.
      destruct (JS.get ps senderId); cbn [snd app].
      * intros [H|[]]. discriminate.
      * intros [H|[H|[]]]; [|discriminate].
        injection H as <- <-. auto.
Qed.

(** An answer from a smaller id, to a client that holds no peer for it,
    makes an answering peer. *)
Example signal_makes_answering_peer :
  WebRTC.handleSignal [] "A" (JS.VObj [("type", JS.VStr "offer")])
  = ([("A", {| WebRTC.initiator := false |})],
     [WebRTC.NewPeer "A" false;
      WebRTC.PeerSignal "A" (JS.VObj [("type", JS.VStr "offer")])]).
Proof. reflexivity. Qed.

(** X11. No glare: two clients never both hold an initiating peer for
    each other, whatever each of them has handled. *)
Theorem no_mutual_initiation (a b : string)
  (eventsA eventsB : list Client.event) :
  ~ (JS.get (fst (Client.run a eventsA)) b
       = Some {| WebRTC.initiator := true |}
     /\ JS.get (fst (Client.run b eventsB)) a
          = Some {| WebRTC.initiator := true |}).
Proof.
  intros [GA GB].
  assert (LA : JS.str_lt a b = true).
  { apply (run_upward a eventsA []
             (fun k p G => ltac:(discriminate)) b _ GA eq_refl). }
  assert (LB : JS.str_lt b a = true).
  { apply (run_upward b eventsB []
             (fun k p G => ltac:(discriminate)) a _ GB eq_refl). }
  destruct (string_dec a b) as [->|N].
  - rewrite str_lt_irrefl in LA. discriminate.
  - rewrite (str_lt_total N), LB in LA. discriminate.
Qed.

(** One side does initiate: after these histories A holds nothing any
    more and B holds the answering peer for A. *)
Example histories :
  fst (Client.run "A" historyOfA) = []
  /\ fst (Client.run "B" historyOfB) = [("A", {| WebRTC.initiator := false |})]
  /\ snd (Client.run "A" historyOfA)
     = [ WebRTC.NewPeer "B" true;
         WebRTC.PeerSignal "B" (JS.VObj [("type", JS.VStr "answer")]);
         WebRTC.PeerDestroy "B" ].
Proof. repeat split. Qed.

(** X12. After a frame of a client whose local player exists, every peer
    it holds is for a player whose sprite is in the scene strictly closer
    than 150 to the local player. *)
Theorem tick_peers_within_threshold (socketId : string) (s : Scene.scene)
  (ps : WebRTC.peers) (me : Scene.sprite) (k : string)
  (Hplayer : Scene.player s = Some me)
  (Hpeer : JS.get (fst (App.tick socketId s ps)) k <> None) :
  exists otherPlayer,
    JS.get (Scene.players s) k = Some otherPlayer
    /\ PrimFloat.ltb
         (Phaser.Between (Scene.x me) (Scene.y me)
            (Scene.x otherPlayer) (Scene.y otherPlayer)) 150 = true.
Proof.
  unfold App.tick, Scene.checkProximity in Hpeer. rewrite Hplayer in Hpeer.
  rewrite proximityUpdate_get in Hpeer.
  destruct (JS.includes _ k) eqn:I; [|congruence].
  apply includes_In, filter_In in I. destruct I as [_ C].
  unfold Scene.isClose in C.
  destruct (JS.get (Scene.players s) k) as [o|]; [|discriminate].
  exists o. split; [reflexivity | exact C].
Qed.

Lemma tick_peers_within_threshold_witness :
  Scene.player sceneOfA = Some {| Scene.x := 0%float; Scene.y := 0%float |}
  /\ JS.get (fst (App.tick "A" sceneOfA [])) "B" <> None
  /\ exists otherPlayer,
       JS.get (Scene.players sceneOfA) "B" = Some otherPlayer
       /\ PrimFloat.ltb
            (Phaser.Between 0%float 0%float
               (Scene.x otherPlayer) (Scene.y otherPlayer))
            150 = true.
Proof.
  assert (H : JS.get (fst (App.tick "A" sceneOfA [])) "B" <> None)
    by (vm_compute; discriminate).
  split; [reflexivity|]. split; [exact H|].
  exact (tick_peers_within_threshold "A" sceneOfA []
           {| Scene.x := 0%float; Scene.y := 0%float |} "B" eq_refl H).
Defined.

(* ===================================================================== *)
(** * More on the scene listeners *)
(* ===================================================================== *)

(** X13. Who is told what. The snapshot goes to the connecting socket
    alone; the join and the leave of a socket are emitted to other
    sockets only; a move is never emitted back to the socket that sent
    it, and it names that socket unless the payload brings an id of its
    own, which it then names instead; a signal carries the id of the
    socket that sent it. *)
Theorem messages_go_to_the_other_sockets (st : Server.state)
  (i : Server.input) (r : string) (m : Server.message)
  (Hemitted : In (r, m) (snd (Server.step st i))) :
  match m with
  | Server.PLAYERS_SYNC _ => i = Server.Connection r
  | Server.PLAYER_JOIN p => Server.id p <> r /\ i = Server.Connection (Server.id p)
  | Server.PLAYER_MOVE pid d =>
      exists sid,
        i = Server.PlayerMove sid (Some d) /\ sid <> r
        /\ pid = match Server.mid d with Some named => named | None => sid end
  | Server.PLAYER_LEAVE sid => sid <> r /\ i = Server.Disconnect sid
  | Server.WEBRTC_SIGNAL senderId _ =>
      exists data, i = Server.WebrtcSignal senderId data
  end.
Proof.
  destruct i as [sid|sid d|sid data|sid].
  - simpl in Hemitted. destruct Hemitted as [E|H].
    + injection E as <- <-. reflexivity.
    + apply In_broadcast in H. destruct H as (_ & N & ->). simpl.
      split; [congruence | reflexivity].
  - rewrite step_move in Hemitted.
    destruct (JS.get (Server.players st) sid); [|destruct Hemitted].
    destruct d as [d|]; [|destruct Hemitted].
    apply In_broadcast in Hemitted. destruct Hemitted as (_ & N & ->).
    exists sid. repeat split; auto.
  - apply step_signal_out in Hemitted.
    destruct Hemitted as (d & -> & E & _). simpl in E. subst m. eauto.
  - simpl in Hemitted. unfold Server.io_emit in Hemitted.
    apply in_map_iff in Hemitted.
    destruct Hemitted as (s & E & H). injection E as <- <-.
    simpl in H. apply In_others in H. split; [intuition congruence|reflexivity].
Qed.

Lemma messages_go_to_the_other_sockets_witness :
  In ("C", Server.PLAYER_MOVE "C" walkAsC)
    (snd (Server.step lineServer (Server.PlayerMove "B" (Some walkAsC))))
  /\ exists sid,
       Server.PlayerMove "B" (Some walkAsC)
       = Server.PlayerMove sid (Some walkAsC)
       /\ sid <> "C".
Proof.
  assert (I : In ("C", Server.PLAYER_MOVE "C" walkAsC)
                (snd (Server.step lineServer
                        (Server.PlayerMove "B" (Some walkAsC)))))
    by (simpl; auto).
  split; [exact I|].
  destruct (messages_go_to_the_other_sockets lineServer
              (Server.PlayerMove "B" (Some walkAsC)) "C"
              (Server.PLAYER_MOVE "C" walkAsC) I) as (sid & E & N & _).
  exists sid. split; [exact E | exact N].
Defined.

Lemma sync_keeps_unique snapshot : forall s,
  NoDup (JS.keys (Scene.players s)) ->
  NoDup (JS.keys (Scene.players (Scene.onPlayersSync s snapshot))).
Proof.
  unfold Scene.onPlayersSync.
  induction (JS.values snapshot) as [|p rs IH]; intros s N; [exact N|].
  simpl. apply IH. destruct (Scene.isMe s p); simpl; [exact N|].
  now apply NoDup_keys_set.
Qed.

Lemma on_keeps_unique s m :
  NoDup (JS.keys (Scene.players s)) ->
  NoDup (JS.keys (Scene.players (Scene.on s m))).
Proof.
  intros N. destruct m as [ps|p|pid d|pid|a b]; simpl.
  - now apply sync_keeps_unique.
  - now apply NoDup_keys_set.
  - unfold Scene.updateOtherPlayer.
    destruct (JS.get (Scene.players s) pid); simpl; [|exact N].
    now apply NoDup_keys_set.
  - unfold Scene.removePlayer.
    destruct (JS.get (Scene.players s) pid); simpl; [|exact N].
    now apply NoDup_keys_delete.
  - exact N.
Qed.

Lemma handled_unique msgs : forall s,
  NoDup (JS.keys (Scene.players s)) ->
  NoDup (JS.keys (Scene.players (fold_left Scene.on msgs s))).
Proof.
  induction msgs as [|m msgs IH]; intros s N; [exact N|].
  simpl. apply IH. now apply on_keeps_unique.
Qed.

(** X14. Whatever messages a scene has handled, [checkProximity] reports
    each close player once: the [closePlayers] array has no duplicates
    and holds exactly the ids whose sprite is strictly closer than 150 to
    the local player; without a local player it reports nothing. *)
Theorem closePlayers_exact (socketId : option string)
  (msgs : list Server.message) :
  let s := fold_left Scene.on msgs (Scene.create socketId) in
  match Scene.player s with
  | None => Scene.checkProximity s = None
  | Some me =>
      exists closePlayers,
        Scene.checkProximity s = Some closePlayers
        /\ NoDup closePlayers
        /\ forall k, In k closePlayers <->
             exists otherPlayer,
               JS.get (Scene.players s) k = Some otherPlayer
               /\ PrimFloat.ltb
                    (Phaser.Between (Scene.x me) (Scene.y me)
                       (Scene.x otherPlayer) (Scene.y otherPlayer)) 150 = true
  end.
Proof.
  cbv zeta. set (s := fold_left Scene.on msgs (Scene.create socketId)).
  assert (N : NoDup (JS.keys (Scene.players s)))
    by (apply handled_unique; constructor).
  unfold Scene.checkProximity.
  destruct (Scene.player s) as [me|]; [|reflexivity].
  eexists. split; [reflexivity|]. split; [now apply NoDup_filter|].
  intros k. rewrite filter_In. unfold Scene.isClose. split.
  - intros [_ C]. destruct (JS.get (Scene.players s) k) as [o|];
      [|discriminate]. eauto.
  - intros (o & G & C). rewrite G. split; [|exact C].
    apply includes_In. eapply get_Some_includes. exact G.
Qed.

(** X15. A join followed by the leave of the same id gives the sprites
    back as they were, when the id had no sprite before. *)
Theorem join_leave_roundtrip (s : Scene.scene) (p : Server.player)
  (Hnew : JS.get (Scene.players s) (Server.id p) = None) :
  Scene.on (Scene.on s (Server.PLAYER_JOIN p))
    (Server.PLAYER_LEAVE (Server.id p)) = s.
Proof.
  simpl. unfold Scene.removePlayer, Scene.addOtherPlayer. simpl.
  rewrite get_set_same, (delete_set_fresh _ _ _ Hnew).
  now destruct s.
Qed.

Lemma join_leave_roundtrip_witness :
  JS.get (Scene.players sceneOfA) "D" = None
  /\ Scene.on (Scene.on sceneOfA (Server.PLAYER_JOIN (Server.spawn "D")))
       (Server.PLAYER_LEAVE "D") = sceneOfA.
Proof.
  split; [reflexivity|].
  exact (join_leave_roundtrip sceneOfA (Server.spawn "D") eq_refl).
Defined.

(** X16. A player who left is not brought back by a late move: after the
    leave of an id, a move for that id changes nothing, and only a join
    (or a snapshot) makes its sprite again. *)
Theorem move_after_leave_ignored (s : Scene.scene) (pid : string)
  (d : Server.movement) :
  let s' := Scene.on s (Server.PLAYER_LEAVE pid) in
  Scene.on s' (Server.PLAYER_MOVE pid d) = s'
  /\ JS.get (Scene.players s') pid = None
  /\ forall k, k <> pid ->
       JS.get (Scene.players s') k = JS.get (Scene.players s) k.
Proof.
  cbv zeta. simpl. destruct (removePlayer_gone s pid) as [G _].
  split; [unfold Scene.updateOtherPlayer; now rewrite G|].
  split; [exact G|].
  intros k N. unfold Scene.removePlayer.
  destruct (JS.get (Scene.players s) pid); simpl; [|reflexivity].
  now apply get_delete_other.
Qed.

(* ===================================================================== *)
(** * More on the zone strategy *)
(* ===================================================================== *)

Lemma loadObject_entry jz o :
  Blueprint.loadObject jz o
  = match zoneEntry o with
    | Some e => JS.set jz (fst e) (snd e)
    | None => jz
    end.
Proof.
  unfold Blueprint.loadObject, zoneEntry.
  destruct (Blueprint.properties o) as [props|]; [|reflexivity].
  now destruct (find _ props).
Qed.

Lemma loadMap_entries md jz :
  Blueprint.loadMap md jz
  = fold_left (fun t e => JS.set t (fst e) (snd e))
      (zoneEntries (triggerObjects md)) jz.
Proof.
  unfold Blueprint.loadMap, triggerObjects.
  destruct (find _ (Blueprint.layers md)) as [l|]; [|reflexivity].
  destruct (Blueprint.objects l) as [objs|]; [|reflexivity].
  revert jz. induction objs as [|o objs IH]; intros jz; [reflexivity|].
  simpl. rewrite IH, loadObject_entry, fold_left_app.
  now destruct (zoneEntry o).
Qed.

Lemma fold_set_get {V} (entries : list (string * V)) r : forall jz : JS.obj V,
  JS.get (fold_left (fun t e => JS.set t (fst e) (snd e)) entries jz) r
  = match lastValue entries r with
    | Some z => Some z
    | None => JS.get jz r
    end.
Proof.
  induction entries as [|[r' z] entries IH]; intros jz; [reflexivity|].
  simpl. rewrite IH. destruct (lastValue entries r); [reflexivity|].
  destruct (String.eqb_spec r' r) as [->|N].
  - apply get_set_same.
  - now apply get_set_other.
Qed.

Lemma fold_set_keys {V} (entries : list (string * V)) : forall jz : JS.obj V,
  JS.keys (fold_left (fun t e => JS.set t (fst e) (snd e)) entries jz)
  = JS.keys jz ++ firstOccurrences (JS.keys entries) (JS.keys jz).
Proof.
  induction entries as [|[r z] entries IH]; intros jz.
  - simpl. now rewrite app_nil_r.
  - simpl. rewrite IH, keys_set.
    destruct (JS.includes (JS.keys jz) r); [reflexivity|].
    now rewrite <- app_assoc.
Qed.

(** X17. The loaded zone table: a room has the rectangle of the last
    trigger object that names it, and a room that no object names keeps
    what the table had. The rooms the table had keep their places, and
    the new rooms follow in the order in which the file names them first:
    a room named twice keeps its first place. Loading into an empty table
    leaves every room name once. *)
Theorem loadMap_table (md : Blueprint.mapData) (jz : Blueprint.zoneTable)
  (r : string) :
  JS.get (Blueprint.loadMap md jz) r
  = match lastValue (zoneEntries (triggerObjects md)) r with
    | Some z => Some z
    | None => JS.get jz r
    end
  /\ JS.keys (Blueprint.loadMap md jz)
     = JS.keys jz
       ++ firstOccurrences (JS.keys (zoneEntries (triggerObjects md)))
            (JS.keys jz)
  /\ NoDup (JS.keys (Blueprint.loadMap md [])).
Proof.
  split; [|split].
  - rewrite loadMap_entries. apply fold_set_get.
  - rewrite loadMap_entries. apply fold_set_keys.
  - apply loadMap_NoDup. constructor.
Qed.

(** A room drawn twice keeps its first place and takes its last
    rectangle. *)
Example redrawn_room :
  JS.keys (Blueprint.loadMap redrawnMap []) = ["first"; "second"]
  /\ Blueprint.getJitsiRoomForPosition (Blueprint.loadMap redrawnMap [])
       205%float 205%float = Some "first"
  /\ Blueprint.getJitsiRoomForPosition (Blueprint.loadMap redrawnMap [])
       10%float 10%float = None.
Proof. repeat split; vm_compute; reflexivity. Qed.

Lemma set_fresh {V} (o : JS.obj V) k v :
  ~ In k (JS.keys o) -> JS.set o k v = o ++ [(k, v)].
Proof.
  induction o as [|[k' v'] o IH]; simpl; [reflexivity|]. intros N.
  destruct (String.eqb_spec k k') as [->|_]; [tauto|].
  rewrite IH; [reflexivity | tauto].
Qed.

Lemma fold_set_fresh entries : forall jz : Blueprint.zoneTable,
  NoDup (JS.keys (jz ++ entries)) ->
  fold_left (fun t e => JS.set t (fst e) (snd e)) entries jz = jz ++ entries.
Proof.
  induction entries as [|[r z] entries IH]; intros jz N.
  - now rewrite app_nil_r.
  - simpl. unfold JS.keys in N. rewrite map_app in N. simpl in N.
    pose proof (NoDup_remove_2 _ _ _ N) as Nr.
    rewrite set_fresh.
    + rewrite IH; rewrite <- app_assoc; [reflexivity|].
      unfold JS.keys. now rewrite map_app.
    + intros I. apply Nr. apply in_app_iff. now left.
Qed.

(** X18. When the trigger objects name pairwise different rooms, the
    table loaded from the file is the list of these rooms with their
    rectangles, in the order of the file. *)
Theorem loadMap_in_file_order (md : Blueprint.mapData)
  (Hdistinct : NoDup (JS.keys (zoneEntries (triggerObjects md)))) :
  Blueprint.loadMap md [] = zoneEntries (triggerObjects md).
Proof.
  rewrite loadMap_entries. now apply (fold_set_fresh _ []).
Qed.

Lemma loadMap_in_file_order_witness :
  NoDup (JS.keys (zoneEntries (triggerObjects overlappingMap)))
  /\ Blueprint.loadMap overlappingMap []
     = zoneEntries (triggerObjects overlappingMap).
Proof.
  assert (N : NoDup (JS.keys (zoneEntries (triggerObjects overlappingMap)))).
  { simpl. repeat constructor; simpl; intuition discriminate. }
  split; [exact N | exact (loadMap_in_file_order overlappingMap N)].
Defined.

Lemma checkJitsiZone_eq db jz sid px py :
  Blueprint.checkJitsiZone db jz sid px py
  = let new := Blueprint.getJitsiRoomForPosition jz px py in
    if Blueprint.strictEq (Blueprint.membership db sid) new then (db, [])
    else match Blueprint.entered new with
         | Some r => (Blueprint.setPlayerJitsiRoom db sid (Some r),
                      [Blueprint.join_jitsi r])
         | None => (Blueprint.setPlayerJitsiRoom db sid None,
                    [Blueprint.leave_jitsi (Blueprint.membership db sid)])
         end.
Proof. reflexivity. Qed.

(** X19. Inside a zone the recomputation is idempotent: the first one
    emits the join unless the stored room is already this zone, it leaves
    this zone as the stored room, and a second one at the same place
    emits nothing and changes nothing. *)
Theorem zone_recheck_idempotent (db : Blueprint.redis)
  (jz : Blueprint.zoneTable) (sid r : string) (px py : JS.num)
  (Hinside : Blueprint.getJitsiRoomForPosition jz px py = Some r)
  (Hnamed : r <> "") :
  let first := Blueprint.checkJitsiZone db jz sid px py in
  snd first
  = (if Blueprint.strictEq (Blueprint.membership db sid) (Some r)
     then [] else [Blueprint.join_jitsi r])
  /\ Blueprint.membership (fst first) sid = Some r
  /\ Blueprint.checkJitsiZone (fst first) jz sid px py = (fst first, []).
Proof.
  cbv zeta. rewrite !checkJitsiZone_eq, Hinside. cbv zeta.
  assert (En : Blueprint.entered (Some r) = Some r).
  { simpl. now destruct (String.eqb_spec r ""). }
  assert (On : Blueprint.orNull (Some r) = r).
  { simpl. now destruct (String.eqb_spec r ""). }
  destruct (Blueprint.strictEq (Blueprint.membership db sid) (Some r)) eqn:S.
  - cbn [fst snd]. rewrite S. split; [reflexivity|]. split; [|reflexivity].
    unfold Blueprint.strictEq in S.
    destruct (Blueprint.membership db sid) as [a|]; [|discriminate].
    apply String.eqb_eq in S. now subst.
  - rewrite En. cbn [fst snd]. rewrite membership_set, On.
    simpl Blueprint.strictEq. rewrite String.eqb_refl. auto.
Qed.

Lemma zone_recheck_idempotent_witness :
  Blueprint.getJitsiRoomForPosition oneZone 10%float 10%float = Some "conf1"
  /\ snd (Blueprint.checkJitsiZone freshDb oneZone "s1" 10%float 10%float)
     = [Blueprint.join_jitsi "conf1"]
  /\ Blueprint.checkJitsiZone
       (fst (Blueprint.checkJitsiZone freshDb oneZone "s1" 10%float 10%float))
       oneZone "s1" 10%float 10%float
     = (fst (Blueprint.checkJitsiZone freshDb oneZone "s1" 10%float 10%float),
        []).
Proof.
  assert (N : "conf1" <> "") by discriminate.
  destruct (zone_recheck_idempotent freshDb oneZone "s1" "conf1"
              10%float 10%float eq_refl N) as (A & _ & C).
  split; [reflexivity|]. split; [exact A | exact C].
Defined.

Lemma playerKey_inj a b : Blueprint.playerKey a = Blueprint.playerKey b -> a = b.
Proof. unfold Blueprint.playerKey. simpl. intros H. now injection H. Qed.

(** X20. A recomputation for one socket leaves the hash of every other
    socket alone: their stored rooms are what they were. *)
Theorem zone_check_isolated (db : Blueprint.redis) (jz : Blueprint.zoneTable)
  (sid other : string) (px py : JS.num)
  (Hother : other <> sid) :
  Blueprint.hGetAll (fst (Blueprint.checkJitsiZone db jz sid px py))
    (Blueprint.playerKey other)
  = Blueprint.hGetAll db (Blueprint.playerKey other)
  /\ Blueprint.membership (fst (Blueprint.checkJitsiZone db jz sid px py)) other
     = Blueprint.membership db other.
Proof.
  assert (K : Blueprint.playerKey sid <> Blueprint.playerKey other).
  { intros E. apply playerKey_inj in E. congruence. }
  assert (G : forall room,
            Blueprint.hGetAll (Blueprint.setPlayerJitsiRoom db sid room)
              (Blueprint.playerKey other)
            = Blueprint.hGetAll db (Blueprint.playerKey other)).
  { intros room.
    unfold Blueprint.setPlayerJitsiRoom, Blueprint.hSet, Blueprint.hGetAll at 1.
    now rewrite get_set_other. }
  assert (H : Blueprint.hGetAll (fst (Blueprint.checkJitsiZone db jz sid px py))
                (Blueprint.playerKey other)
              = Blueprint.hGetAll db (Blueprint.playerKey other)).
  { rewrite checkJitsiZone_eq. cbv zeta.
    destruct (Blueprint.strictEq _ _); [reflexivity|].
    destruct (Blueprint.entered _); apply G. }
  split; [exact H|]. unfold Blueprint.membership. now rewrite H.
Qed.

Lemma zone_check_isolated_witness :
  "s1" <> "s2"
  /\ Blueprint.membership
       (fst (Blueprint.checkJitsiZone inConf1 oneZone "s2" 10%float 10%float))
       "s1" = Some "conf1".
Proof.
  assert (N : "s1" <> "s2") by discriminate.
  split; [exact N|].
  destruct (zone_check_isolated inConf1 oneZone "s2" "s1" 10%float 10%float N)
    as [_ M].
  rewrite M. reflexivity.
Defined.

(** X21. Outside every zone each recomputation emits a leave event and
    stores the text null: the first event carries the room that was
    stored, and every later one, the player still being outside, carries
    the text null. *)
Theorem outside_every_recheck_leaves (db : Blueprint.redis)
  (jz : Blueprint.zoneTable) (sid : string) (px py px' py' : JS.num)
  (Houtside : Blueprint.getJitsiRoomForPosition jz px py = None)
  (Hstill : Blueprint.getJitsiRoomForPosition jz px' py' = None) :
  let first := Blueprint.checkJitsiZone db jz sid px py in
  snd first = [Blueprint.leave_jitsi (Blueprint.membership db sid)]
  /\ Blueprint.membership (fst first) sid = Some "null"
  /\ snd (Blueprint.checkJitsiZone (fst first) jz sid px' py')
     = [Blueprint.leave_jitsi (Some "null")].
Proof.
  cbv zeta. rewrite !checkJitsiZone_eq, Houtside, Hstill. cbv zeta.
  assert (S : forall c, Blueprint.strictEq c None = false)
    by (intros [c|]; reflexivity).
  rewrite !S. cbn [Blueprint.entered fst snd].
  rewrite membership_set. auto.
Qed.

Lemma outside_every_recheck_leaves_witness :
  Blueprint.getJitsiRoomForPosition oneZone 60%float 60%float = None
  /\ snd (Blueprint.checkJitsiZone
            (fst (Blueprint.checkJitsiZone inConf1 oneZone "s1"
                    60%float 60%float))
            oneZone "s1" 60%float 60%float)
     = [Blueprint.leave_jitsi (Some "null")].
Proof.
  split; [reflexivity|].
  exact (proj2 (proj2 (outside_every_recheck_leaves inConf1 oneZone "s1"
                         60%float 60%float 60%float 60%float
                         eq_refl eq_refl))).
Defined.

(* ===================================================================== *)
(** * The state manager *)
(* ===================================================================== *)

Lemma hGetAll_hSet db key field v key' :
  Blueprint.hGetAll (Blueprint.hSet db key field v) key'
  = if String.eqb key key'
    then JS.set (Blueprint.hGetAll db key) field v
    else Blueprint.hGetAll db key'.
Proof.
  unfold Blueprint.hSet, Blueprint.hGetAll at 1.
  destruct (String.eqb_spec key key') as [<-|N].
  - now rewrite get_set_same.
  - now rewrite get_set_other.
Qed.

Lemma hGetAll_hSetAll key key' fields : forall db,
  Blueprint.hGetAll (StateManager.hSetAll db key fields) key'
  = if String.eqb key key'
    then fold_left (fun h f => JS.set h (fst f) (snd f)) fields
           (Blueprint.hGetAll db key)
    else Blueprint.hGetAll db key'.
Proof.
  unfold StateManager.hSetAll.
  induction fields as [|[f v] fields IH]; intros db; simpl.
  - now destruct (String.eqb_spec key key') as [<-|].
  - rewrite IH, !hGetAll_hSet. rewrite String.eqb_refl.
    now destruct (String.eqb key key').
Qed.

Lemma sMembers_sAdd ss key m key' x :
  In x (StateManager.sMembers (StateManager.sAdd ss key m) key')
  <-> In x (StateManager.sMembers ss key') \/ (key' = key /\ x = m).
Proof.
  unfold StateManager.sAdd.
  destruct (JS.includes (StateManager.sMembers ss key) m) eqn:I.
  - apply includes_In in I. split; [auto|]. intros [H|[-> ->]]; auto.
  - unfold StateManager.sMembers at 1.
    destruct (String.eqb_spec key key') as [<-|N].
    + rewrite get_set_same, in_app_iff. simpl. intuition.
    + rewrite get_set_other by assumption.
      fold (StateManager.sMembers ss key'). intuition congruence.
Qed.

Lemma sMembers_sRem ss key m key' x :
  In x (StateManager.sMembers (StateManager.sRem ss key m) key')
  <-> In x (StateManager.sMembers ss key') /\ ~ (key' = key /\ x = m).
Proof.
  unfold StateManager.sRem.
  destruct (JS.get ss key) as [l|] eqn:G.
  - unfold StateManager.sMembers at 1.
    destruct (String.eqb_spec key key') as [<-|N].
    + rewrite get_set_same, In_others. unfold StateManager.sMembers.
      rewrite G. intuition.
    + rewrite get_set_other by assumption.
      fold (StateManager.sMembers ss key'). intuition congruence.
  - split; [|tauto]. intros H. split; [exact H|]. intros [-> ->].
    unfold StateManager.sMembers in H. now rewrite G in H.
Qed.

Lemma NoDup_sAdd ss key m key' :
  NoDup (StateManager.sMembers ss key') ->
  NoDup (StateManager.sMembers (StateManager.sAdd ss key m) key').
Proof.
  intros N. unfold StateManager.sAdd.
  destruct (JS.includes (StateManager.sMembers ss key) m) eqn:I; [exact N|].
  apply includes_false in I. unfold StateManager.sMembers at 1.
  destruct (String.eqb_spec key key') as [<-|Nk].
  - rewrite get_set_same.
    apply NoDup_app; [assumption | repeat constructor; intros [] |].
    intros x Hx [<-|[]]. contradiction.
  - now rewrite get_set_other.
Qed.

Lemma added_hash st sid u r :
  Blueprint.hGetAll
    (StateManager.hashes (fst (StateManager.addPlayer st sid u r)))
    (Blueprint.playerKey sid)
  = fold_left (fun h f => JS.set h (fst f) (snd f))
      (StateManager.newPlayer sid u r)
      (Blueprint.hGetAll (StateManager.hashes st) (Blueprint.playerKey sid)).
Proof.
  unfold StateManager.addPlayer. cbn [fst StateManager.hashes].
  now rewrite hGetAll_hSetAll, String.eqb_refl.
Qed.

(** X22. A player that was added is stored and listed: its hash holds the
    fields of the new player (spawn 100/100, room main_office, call room
    null), whatever the hash held before; its id is a member of the room
    set, once; and [getPlayersInRoom] of the main office returns its
    hash. *)
Theorem added_player_is_listed (st : StateManager.store)
  (socketId username role : string) :
  let st' := fst (StateManager.addPlayer st socketId username role) in
  let player :=
    Blueprint.hGetAll (StateManager.hashes st') (Blueprint.playerKey socketId) in
  (forall field v,
     lastValue (StateManager.newPlayer socketId username role) field = Some v ->
     JS.get player field = Some v)
  /\ Blueprint.membership (StateManager.hashes st') socketId = Some "null"
  /\ In socketId
       (StateManager.sMembers (StateManager.sets st')
          (StateManager.roomKey "main_office"))
  /\ (NoDup (StateManager.sMembers (StateManager.sets st)
               (StateManager.roomKey "main_office")) ->
      NoDup (StateManager.sMembers (StateManager.sets st')
               (StateManager.roomKey "main_office")))
  /\ In player (StateManager.getPlayersInRoom st' "main_office").
Proof.
  cbv zeta.
  assert (F : forall field v,
            lastValue (StateManager.newPlayer socketId username role) field
            = Some v ->
            JS.get (Blueprint.hGetAll
                      (StateManager.hashes
                         (fst (StateManager.addPlayer st socketId username role)))
                      (Blueprint.playerKey socketId)) field = Some v).
  { intros field v L. rewrite added_hash, fold_set_get. now rewrite L. }
  assert (I : In socketId
                (StateManager.sMembers
                   (StateManager.sets
                      (fst (StateManager.addPlayer st socketId username role)))
                   (StateManager.roomKey "main_office"))).
  { apply sMembers_sAdd. right. split; reflexivity. }
  split; [exact F|].
  split; [unfold Blueprint.membership; apply F; reflexivity|].
  split; [exact I|].
  split; [apply NoDup_sAdd|].
  unfold StateManager.getPlayersInRoom. apply in_flat_map.
  exists socketId. split; [exact I | now left].
Qed.

(** X23. Removing a player that was added clears it: its hash is gone,
    its id is out of the room set of the main office, and the hashes and
    the room memberships of all other ids are what they were before the
    player was added. *)
Theorem add_remove_clears (st : StateManager.store)
  (socketId username role : string) :
  let st' :=
    StateManager.removePlayer
      (fst (StateManager.addPlayer st socketId username role)) socketId in
  Blueprint.hGetAll (StateManager.hashes st') (Blueprint.playerKey socketId) = []
  /\ ~ In socketId
         (StateManager.sMembers (StateManager.sets st')
            (StateManager.roomKey "main_office"))
  /\ (forall other, other <> socketId ->
        Blueprint.hGetAll (StateManager.hashes st') (Blueprint.playerKey other)
        = Blueprint.hGetAll (StateManager.hashes st) (Blueprint.playerKey other))
  /\ (forall other key, other <> socketId ->
        (In other (StateManager.sMembers (StateManager.sets st') key)
         <-> In other (StateManager.sMembers (StateManager.sets st) key))).
Proof.
  cbv zeta.
  assert (R : StateManager.hGet
                (StateManager.hashes
                   (fst (StateManager.addPlayer st socketId username role)))
                (Blueprint.playerKey socketId) "currentRoom"
              = Some "main_office").
  { unfold StateManager.hGet. rewrite added_hash, fold_set_get. reflexivity. }
  unfold StateManager.removePlayer. rewrite R. cbn [String.eqb Ascii.eqb
    Bool.eqb StateManager.hashes StateManager.sets]. simpl String.eqb.
  cbv iota. cbn [StateManager.hashes StateManager.sets].
  split.
  { unfold StateManager.del, Blueprint.hGetAll. now rewrite get_delete_same. }
  split.
  { rewrite sMembers_sRem. tauto. }
  split.
  { intros other N.
    assert (K : Blueprint.playerKey socketId <> Blueprint.playerKey other).
    { intros E. apply playerKey_inj in E. congruence. }
    unfold StateManager.del, Blueprint.hGetAll at 1.
    rewrite get_delete_other by assumption.
    fold (Blueprint.hGetAll
            (StateManager.hashes
               (fst (StateManager.addPlayer st socketId username role)))
            (Blueprint.playerKey other)).
    unfold StateManager.addPlayer. cbn [fst StateManager.hashes].
    rewrite hGetAll_hSetAll.
    now destruct (String.eqb_spec (Blueprint.playerKey socketId)
                    (Blueprint.playerKey other)). }
  intros other key N. rewrite sMembers_sRem.
  unfold StateManager.addPlayer. cbn [fst StateManager.sets].
  rewrite sMembers_sAdd. intuition congruence.
Qed.

(** The first player of an empty store: listed once added, gone once
    removed, and told to join the room it walks into. *)
Example first_player :
  let st := fst (StateManager.addPlayer StateManager.empty "s1" "Brad" "Intern") in
  StateManager.getPlayersInRoom st "main_office"
  = [StateManager.newPlayer "s1" "Brad" "Intern"]
  /\ StateManager.getPlayersInRoom (StateManager.removePlayer st "s1")
       "main_office" = []
  /\ snd (Blueprint.checkJitsiZone (StateManager.hashes st) oneZone "s1"
            10%float 10%float) = [Blueprint.join_jitsi "conf1"].
Proof. repeat split; vm_compute; reflexivity. Qed.

(** X24. The recomputation does not stop at a socket without a hash:
    [hGetAll] answers an empty object for it, so outside every zone a
    leave event without a room name is emitted, inside a zone the join
    is, and either way a hash holding only the call room is written under
    the player key. *)
Theorem check_writes_missing_player (db : Blueprint.redis)
  (jz : Blueprint.zoneTable) (sid : string) (px py : JS.num)
  (Hmissing : JS.get db (Blueprint.playerKey sid) = None) :
  let new := Blueprint.getJitsiRoomForPosition jz px py in
  let after := fst (Blueprint.checkJitsiZone db jz sid px py) in
  snd (Blueprint.checkJitsiZone db jz sid px py)
  = match Blueprint.entered new with
    | Some r => [Blueprint.join_jitsi r]
    | None => [Blueprint.leave_jitsi None]
    end
  /\ JS.get after (Blueprint.playerKey sid)
     = Some [("currentJitsiRoom", Blueprint.orNull (Blueprint.entered new))].
Proof.
  cbv zeta. rewrite !checkJitsiZone_eq. cbv zeta.
  assert (M : Blueprint.membership db sid = None).
  { unfold Blueprint.membership, Blueprint.hGetAll. now rewrite Hmissing. }
  rewrite M. cbn [Blueprint.strictEq].
  assert (H : forall room,
            JS.get (Blueprint.setPlayerJitsiRoom db sid room)
              (Blueprint.playerKey sid)
            = Some [("currentJitsiRoom", Blueprint.orNull room)]).
  { intros room. unfold Blueprint.setPlayerJitsiRoom, Blueprint.hSet.
    rewrite get_set_same. unfold Blueprint.hGetAll. now rewrite Hmissing. }
  destruct (Blueprint.entered _) as [r|] eqn:E; cbn [fst snd];
    split; try reflexivity; apply H.
Qed.

Lemma check_writes_missing_player_witness :
  JS.get inConf1 (Blueprint.playerKey "s2") = None
  /\ snd (Blueprint.checkJitsiZone inConf1 oneZone "s2" 60%float 60%float)
     = [Blueprint.leave_jitsi None]
  /\ JS.get (fst (Blueprint.checkJitsiZone inConf1 oneZone "s2"
                    60%float 60%float)) (Blueprint.playerKey "s2")
     = Some [("currentJitsiRoom", "null")].
Proof.
  split; [reflexivity|].
  exact (check_writes_missing_player inConf1 oneZone "s2" 60%float 60%float
           eq_refl).
Defined.

(* ===================================================================== *)
(** * A signal, from the sender to the peer of the target *)
(* ===================================================================== *)

(** X25. A signal request with a truthy payload for a connected socket
    ends in the target's service: the server emits one message, to the
    target; the target's listener makes sure a peer for the sender
    exists, creating an answering one if there was none and keeping the
    one there was, and feeds it the payload unchanged. *)
Theorem relayed_signal_reaches_peer (st : Server.state)
  (sender target : string) (signal : JS.value) (ps : WebRTC.peers)
  (Hpayload : JS.truthy signal = true)
  (Hnamed : target <> "")
  (Hconnected : In target (Server.sockets st)) :
  let request := {| Server.targetId := JS.VStr target;
                    Server.signal := signal |} in
  exists m,
    Server.onWebrtcSignal sender (Some request) st
    = Server.Returns st [(target, m)]
    /\ snd (Client.receive ps m)
       = match JS.get ps sender with
         | Some _ => []
         | None => [WebRTC.NewPeer sender false]
         end ++ [WebRTC.PeerSignal sender signal]
    /\ JS.get (fst (Client.receive ps m)) sender
       = Some match JS.get ps sender with
              | Some p => p
              | None => {| WebRTC.initiator := false |}
              end.
Proof.
  cbv zeta. exists (Server.WEBRTC_SIGNAL sender signal).
  unfold Server.onWebrtcSignal. cbn [Server.targetId Server.signal JS.truthy].
  rewrite Hpayload.
  destruct (String.eqb_spec target "") as [E|_]; [contradiction|].
  cbn [negb orb]. rewrite io_to_emit_text.
  apply includes_In in Hconnected. rewrite Hconnected.
  split; [reflexivity|].
  cbn [Client.receive]. rewrite handleSignal_get.
  unfold WebRTC.handleSignal, WebRTC.createPeer.
  destruct (JS.get ps sender); cbn [fst snd].
  - now split.
  - rewrite String.eqb_refl. now split.
Qed.

Lemma relayed_signal_reaches_peer_witness :
  In "B" (Server.sockets lineServer)
  /\ exists m,
       Server.onWebrtcSignal "A" (Some offerSignal) lineServer
       = Server.Returns lineServer [("B", m)]
       /\ snd (Client.receive [] m)
          = [ WebRTC.NewPeer "A" false;
              WebRTC.PeerSignal "A" (JS.VObj [("type", JS.VStr "offer")]) ]
       /\ JS.get (fst (Client.receive [] m)) "A"
          = Some {| WebRTC.initiator := false |}.
Proof.
  assert (I : In "B" (Server.sockets lineServer)) by (simpl; auto).
  assert (N : "B" <> "") by discriminate.
  split; [exact I|].
  exact (relayed_signal_reaches_peer lineServer "A" "B"
           (JS.VObj [("type", JS.VStr "offer")]) [] eq_refl N I).
Defined.
